(** * Tic-tac-toe rules engine and self-play driver (src/tictactoe.py)

    A shallow embedding of [TicTacToeBoard], [_find_winner],
    [new_tic_tac_toe_board] and [play_game], with the properties the
    specification states about them.

    Python values are modelled as follows.
    - A cell of [board.tup], and [board.winner], is one of [None], [True],
      [False]: [option bool], with [True] the mark of X and [False] of O.
    - [board.turn] is [True] or [False]: [bool].
    - A tuple is a [list]; reading [tup[i]] past its end raises [IndexError].
      An index is a natural number; the negative indices of Python are not
      modelled.
    - A Python [set] of boards is a [gset TicTacToeBoard].
    - An exception ends the computation: [result] is the error monad. *)

From Stdlib Require Import ZArith Ascii String.
From stdpp Require Import base decidable countable list gmap relations pretty.

#[local] Set Warnings "-clear-no-such-hyp".

Local Open Scope Z_scope.
Local Open Scope nat_scope.

(** ** Exceptions *)

Inductive runtime_error :=
  | nonterminal_board     (* "reward called on nonterminal board ..." *)
  | unreachable_board     (* "reward called on unreachable board ..." *)
  | unknown_winner_type.  (* "board has unknown winner type ..." *)

Inductive exn :=
  | RuntimeError (why : runtime_error)
  | IndexError.

Inductive result (A : Type) :=
  | Ok (a : A)
  | Raise (e : exn).
Arguments Ok {A} a.
Arguments Raise {A} e.

#[global] Instance result_ret : MRet result := λ A a, Ok a.
#[global] Instance result_bind : MBind result := λ A B f m,
  match m with Ok a => f a | Raise e => Raise e end.
#[global] Instance result_fmap : FMap result := λ A B f m,
  match m with Ok a => Ok (f a) | Raise e => Raise e end.

(** ** The board *)

Abbreviation cell := (option bool).

Definition X : bool := true.
Definition O : bool := false.

(** [_TTTB = namedtuple("TicTacToeBoard", "tup turn winner terminal rand")] *)
Record TicTacToeBoard := TTTB {
  tup : list cell;
  turn : bool;
  winner : option bool;
  terminal : bool;
  rand : bool
}.

#[global] Instance TicTacToeBoard_eq_dec : EqDecision TicTacToeBoard.
Proof. solve_decision. Defined.

#[global] Instance TicTacToeBoard_countable : Countable TicTacToeBoard.
Proof.
  refine (inj_countable'
    (λ b, (tup b, turn b, winner b, terminal b, rand b))
    (λ '(t, u, w, e, r), TTTB t u w e r) _).
  by intros [].
Defined.

(** [tup[i]] *)
Definition getitem {A} (t : list A) (i : nat) : result A :=
  match t !! i with
  | Some v => Ok v
  | None => Raise IndexError
  end.

(** [range(start, stop, step)] for a positive [step] *)
Definition range (start stop step : nat) : list nat :=
  (λ k, start + step * k) <$> seq 0 ((stop - start + (step - 1)) / step).

(** [enumerate(t)] *)
Definition enumerate {A} (t : list A) : list (nat * A) :=
  imap (λ i v, (i, v)) t.

(** The truth value of [None], [True] and [False], and [not v]. *)
Definition truth (v : option bool) : bool :=
  match v with
  | Some true => true
  | Some false | None => false
  end.

Definition py_not (v : option bool) : bool := negb (truth v).

(** ** Winner detection *)

Definition _winning_combos : list (nat * nat * nat) :=
  ((λ start, (start, start + 1, start + 2)) <$> range 0 9 3) ++
  ((λ start, (start, start + 3, start + 6)) <$> range 0 3 1) ++
  [(0, 4, 8)] ++
  [(2, 4, 6)].

(** [c is v1 is v2 is v3] *)
Definition is_chain (c v1 v2 v3 : cell) : bool :=
  bool_decide (c = v1) && bool_decide (v1 = v2) && bool_decide (v2 = v3).

(** The [for] loop of [_find_winner] over the combos still to visit. *)
Fixpoint find_winner_loop (combos : list (nat * nat * nat)) (t : list cell)
  : result (option bool) :=
  match combos with
  | [] => Ok None
  | (i1, i2, i3) :: rest =>
      v1 ← getitem t i1;
      v2 ← getitem t i2;
      v3 ← getitem t i3;
      if is_chain (Some false) v1 v2 v3 then Ok (Some false)
      else if is_chain (Some true) v1 v2 v3 then Ok (Some true)
      else find_winner_loop rest t
  end.

Definition _find_winner (t : list cell) : result (option bool) :=
  find_winner_loop _winning_combos t.

(** ** Methods of [TicTacToeBoard] *)

(** [any(v is None for v in t)] *)
Definition any_is_None (t : list cell) : bool :=
  existsb (λ v, bool_decide (v = None)) t.

Definition make_move (board : TicTacToeBoard) (index : nat) (rand' : bool)
  : result TicTacToeBoard :=
  let tup' := take index (tup board) ++ [Some (turn board)]
                ++ drop (index + 1) (tup board) in
  let turn' := negb (turn board) in
  winner' ← _find_winner tup';
  let is_terminal := bool_decide (winner' ≠ None) || negb (any_is_None tup') in
  Ok (TTTB tup' turn' winner' is_terminal rand').

(** [[i for i, value in enumerate(board.tup) if value is None]] *)
Definition empty_spots (board : TicTacToeBoard) : list nat :=
  (filter (λ iv, iv.2 = None) (enumerate (tup board))).*1.

Definition find_children (board : TicTacToeBoard) : result (gset TicTacToeBoard) :=
  if terminal board then Ok ∅
  else list_to_set <$> mapM (λ i, make_move board i false) (empty_spots board).

(** [choice(empty_spots)] picks the element at a random position [k];
    on an empty list it raises [IndexError]. *)
Definition find_random_child (k : nat) (board : TicTacToeBoard)
  : result (option TicTacToeBoard) :=
  if terminal board then Ok None
  else
    i ← getitem (empty_spots board) k;
    Some <$> make_move board i true.

Definition reward (board : TicTacToeBoard) : result Z :=
  if negb (terminal board) then Raise (RuntimeError nonterminal_board)
  else if bool_decide (winner board = Some (turn board)) then
    Raise (RuntimeError unreachable_board)
  else if bool_decide (turn board = py_not (winner board)) then Ok (-1)%Z
  else if bool_decide (winner board = None) then Ok 0%Z
  else Raise (RuntimeError unknown_winner_type).

Definition is_terminal (board : TicTacToeBoard) : bool := terminal board.

Definition new_tic_tac_toe_board : TicTacToeBoard :=
  TTTB (replicate 9 None) true None false false.

Definition to_char (v : cell) : string :=
  match v with
  | Some true => "X"
  | Some false => "O"
  | None => " "
  end.

Definition newline : string := String "010"%char EmptyString.

Definition to_pretty_string (board : TicTacToeBoard) : result string :=
  rows ← mapM (λ row,
            mapM (λ col, to_char <$> getitem (tup board) (3 * row + col))
                 (range 0 3 1))
          (range 0 3 1);
  Ok (newline ++ "  1 2 3" ++ newline
      ++ String.concat newline
           ((λ ir, pretty (ir.1 + 1) ++ " " ++ String.concat " " ir.2)
              <$> enumerate rows)
      ++ newline)%string.

(** ** The self-play driver *)

(** The global [data = {'State': [], 'Turn': [], 'Action': []}]. *)
Record dataset := Data {
  State : list (list string);
  Turn : list string;
  Action : list nat
}.

Definition empty_data : dataset := Data [] [] [].

(** ['0' if x is None else '1' if x else '-1'] *)
Definition state_code (x : cell) : string :=
  match x with
  | None => "0"
  | Some true => "1"
  | Some false => "-1"
  end.

(** ['1' if t==True else '-1' if t==False else '0'] *)
Definition turn_code (t : option bool) : string :=
  if bool_decide (t = Some true) then "1"
  else if bool_decide (t = Some false) then "-1"
  else "0".

(** [for i in ...: if old[i] != new[i]: data['Action'].append(i)] *)
Fixpoint append_actions (indices : list nat) (old new : list cell)
    (actions : list nat) : result (list nat) :=
  match indices with
  | [] => Ok actions
  | i :: rest =>
      a ← getitem old i;
      b ← getitem new i;
      append_actions rest old new
        (if bool_decide (a ≠ b) then actions ++ [i] else actions)
  end.

(** The [if (not new_board.rand):] block of [play_game]. *)
Definition record_transition (board new_board : TicTacToeBoard) (data : dataset)
  : result dataset :=
  if negb (rand new_board) then
    let state := state_code <$> tup board in
    let states := State data ++ [state] in
    let turns := Turn data ++ [turn_code (Some (turn board))] in
    actions ← append_actions (range 0 9 1) (tup board) (tup new_board)
                (Action data);
    Ok (Data states turns actions)
  else Ok data.

(** What the process has changed: the global [data] and the lines printed. *)
Record world := World {
  data : dataset;
  stdout : list string
}.

Definition print (line : string) (w : world) : world :=
  World (data w) (stdout w ++ [line]).

Section SelfPlay.
(** The search engine of module [mcts] is outside this program: [MCTS] is
    the state of a tree, [do_rollout] and [choose] its two methods. *)
Context {MCTS : Type}.
Variable new_tree : MCTS.
Variable do_rollout : MCTS → TicTacToeBoard → MCTS.
Variable choose : MCTS → TicTacToeBoard → TicTacToeBoard.

(** One round of the [while True:] loop, up to the test of [board.terminal]. *)
Definition play_round (tree : MCTS) (board : TicTacToeBoard) (w : world)
  : result (MCTS * TicTacToeBoard * world) :=
  let tree := Nat.iter 100 (λ t, do_rollout t board) tree in
  let new_board := choose tree board in
  data' ← record_transition board new_board (data w);
  let w := World data' (stdout w) in
  let board := new_board in
  pretty_string ← to_pretty_string board;
  let w := print pretty_string w in
  let w :=
    if bool_decide (winner board ≠ None) then
      print "" (print (if truth (winner board) then "X wins" else "O wins") w)
    else w in
  Ok (tree, board, w).

(** The loop, for at most [fuel] rounds; [None] when they do not suffice. *)
Fixpoint play_loop (fuel : nat) (tree : MCTS) (board : TicTacToeBoard)
    (w : world) : option (result world) :=
  match fuel with
  | 0 => None
  | S fuel' =>
      match play_round tree board w with
      | Raise e => Some (Raise e)
      | Ok (tree, board, w) =>
          if terminal board then Some (Ok w)
          else play_loop fuel' tree board w
      end
  end.

Definition play_game (fuel : nat) (w : world) : option (result world) :=
  play_loop fuel new_tree new_tic_tac_toe_board w.
End SelfPlay.

(** ** Vocabulary of the specification *)

(** The number of Empty cells. *)
Definition count_empty (t : list cell) : nat :=
  length (filter (λ v, v = None) t).

(** The 8 winning lines: 3 rows, 3 columns, 2 diagonals. *)
Definition winning_lines : list (nat * nat * nat) :=
  [(0, 1, 2); (3, 4, 5); (6, 7, 8);
   (0, 3, 6); (1, 4, 7); (2, 5, 8);
   (0, 4, 8); (2, 4, 6)].

(** The three cells of [line] all hold the mark of player [p]. *)
Definition holds_line (t : list cell) (p : bool) (line : nat * nat * nat) : Prop :=
  t !! line.1.1 = Some (Some p) ∧
  t !! line.1.2 = Some (Some p) ∧
  t !! line.2 = Some (Some p).

Definition has_line (t : list cell) (p : bool) : Prop :=
  ∃ line, line ∈ winning_lines ∧ holds_line t p line.

(** One move of a game: the mover's mark goes to an Empty cell of a board
    that is not terminal, by [find_children] ([r = false]) or by
    [find_random_child] ([r = true]). *)
Definition successor (b b' : TicTacToeBoard) : Prop :=
  terminal b = false ∧
  ∃ i r, tup b !! i = Some None ∧ make_move b i r = Ok b'.

(** [b'] is one of the moves that [find_children] enumerates at [b]. *)
Definition child (b b' : TicTacToeBoard) : Prop :=
  ∃ kids : gset TicTacToeBoard, find_children b = Ok kids ∧ b' ∈ kids.

Definition reachable (b : TicTacToeBoard) : Prop :=
  rtc child new_tic_tac_toe_board b.

Definition playable (b : TicTacToeBoard) : Prop :=
  rtc successor new_tic_tac_toe_board b.

(** The three sequences of the dataset have one entry per record. *)
Definition lockstep (d : dataset) : Prop :=
  length (State d) = length (Turn d) ∧ length (Turn d) = length (Action d).

(** ** Auxiliary definitions of the proofs *)

Definition in_range (n : nat) (line : nat * nat * nat) : Prop :=
  line.1.1 < n ∧ line.1.2 < n ∧ line.2 < n.

(** The positions of the Empty cells of [t], counted from [k]. *)
Fixpoint spots_from (k : nat) (t : list cell) : list nat :=
  match t with
  | [] => []
  | v :: t' =>
      if bool_decide (v = None) then k :: spots_from (S k) t'
      else spots_from (S k) t'
  end.

(** The board [make_move] builds once [_find_winner] has returned [w]. *)
Definition moved (b : TicTacToeBoard) (i : nat) (r : bool) (w : option bool)
  : TicTacToeBoard :=
  let t := <[i:=Some (turn b)]> (tup b) in
  TTTB t (negb (turn b)) w (bool_decide (w ≠ None) || negb (any_is_None t)) r.

(** The winner [_find_winner] returns on [t], [None] when it raises. *)
Definition winner_of (t : list cell) : option bool :=
  match _find_winner t with
  | Ok w => w
  | Raise _ => None
  end.

Definition move_to (b : TicTacToeBoard) (r : bool) (i : nat) : TicTacToeBoard :=
  moved b i r (winner_of (<[i:=Some (turn b)]> (tup b))).

(** What holds of every board of a game. *)
Record consistent (b : TicTacToeBoard) : Prop := Consistent {
  consistent_length : length (tup b) = 9;
  consistent_winner : _find_winner (tup b) = Ok (winner b);
  consistent_terminal :
    terminal b = bool_decide (winner b ≠ None) || negb (any_is_None (tup b));
  consistent_turn : turn b = Nat.odd (count_empty (tup b));
  consistent_loser : winner b ≠ Some (turn b)
}.

(** The board after the moves at the cells [moves], each by [find_children]. *)
Fixpoint after (moves : list nat) (b : TicTacToeBoard) : TicTacToeBoard :=
  match moves with
  | [] => b
  | i :: rest => after rest (move_to b false i)
  end.

(** Each of [moves] goes to an Empty cell of a board that is not terminal. *)
Fixpoint legal (moves : list nat) (b : TicTacToeBoard) : bool :=
  match moves with
  | [] => true
  | i :: rest =>
      negb (terminal b) && bool_decide (tup b !! i = Some None)
      && legal rest (move_to b false i)
  end.

(** A full board without a completed line, with X to move. *)
Definition drawn_X_to_move : TicTacToeBoard :=
  TTTB [Some X; Some O; Some X;
        Some O; Some X; Some O;
        Some O; Some X; Some O] X None true false.

(** The dataset once the move on board [b] at cell [i] is recorded. *)
Definition recorded (b : TicTacToeBoard) (i : nat) (d : dataset) : dataset :=
  Data (State d ++ [state_code <$> tup b])
       (Turn d ++ [turn_code (Some (turn b))])
       (Action d ++ [i]).

(** [tree.choose(board)] returns a successor of [board], on every board of a
    game that is not terminal. *)
Definition chooses_successor {MCTS : Type}
    (choose : MCTS → TicTacToeBoard → TicTacToeBoard) : Prop :=
  ∀ tree b, playable b → terminal b = false → successor b (choose tree b).

(** The engine that moves to the first Empty cell. *)
Definition first_child (b : TicTacToeBoard) : TicTacToeBoard :=
  match empty_spots b with
  | i :: _ => move_to b false i
  | [] => b
  end.

(** The inverse of [state_code]. *)
Definition decode_cell (s : string) : option cell :=
  if String.eqb s "0" then Some None
  else if String.eqb s "1" then Some (Some X)
  else if String.eqb s "-1" then Some (Some O)
  else None.

(** The inverse of [turn_code] on the two players. *)
Definition decode_turn (s : string) : option bool :=
  if String.eqb s "1" then Some X
  else if String.eqb s "-1" then Some O
  else None.

(** The board with cells [t] and [u] to move: [winner] and [terminal] as
    [make_move] computes them, [rand] false. *)
Definition board_of (t : list cell) (u : bool) : TicTacToeBoard :=
  TTTB t u (winner_of t)
       (bool_decide (winner_of t ≠ None) || negb (any_is_None t)) false.

(** The board that the entries [State[i]] and [Turn[i]] of a record code. *)
Definition decode_board (state : list string) (t : string) : option TicTacToeBoard :=
  cells ← mapM decode_cell state;
  u ← decode_turn t;
  Some (board_of cells u).

(** The number of cells of [t] that hold the mark of player [p]. *)
Definition count_mark (p : bool) (t : list cell) : nat :=
  length (filter (λ v, v = Some p) t).

(** Player [p] holds a line of [combos] and no line before it in [combos]
    is held by a player. *)
Definition first_line (combos : list (nat * nat * nat)) (t : list cell)
    (p : bool) : Prop :=
  ∃ k line, combos !! k = Some line ∧ holds_line t p line ∧
    ∀ k' line' q, k' < k → combos !! k' = Some line' → ¬ holds_line t q line'.

(** The character of [to_char]. *)
Definition mark_char (v : cell) : ascii :=
  match v with
  | Some true => "X"
  | Some false => "O"
  | None => " "
  end%char.

(** The 3 by 3 grid with its legend, for the 9 marks [marks]. *)
Definition grid (marks : list string) : string :=
  match marks with
  | [a; b; c; d; e; f; g; h; i] =>
      newline ++ "  1 2 3" ++ newline
      ++ "1 " ++ a ++ " " ++ b ++ " " ++ c ++ newline
      ++ "2 " ++ d ++ " " ++ e ++ " " ++ f ++ newline
      ++ "3 " ++ g ++ " " ++ h ++ " " ++ i ++ newline
  | _ => ""
  end%string.

(** The indices among 0-8 at which two tuples differ, in increasing order. *)
Definition differing (old new : list cell) : list nat :=
  filter (λ i, old !! i ≠ new !! i) (range 0 9 1).

(** The dataset after the [if (not new_board.rand):] block, when no index
    is out of range. *)
Definition logged (b b' : TicTacToeBoard) (d : dataset) : dataset :=
  if rand b' then d
  else Data (State d ++ [state_code <$> tup b])
            (Turn d ++ [turn_code (Some (turn b))])
            (Action d ++ differing (tup b) (tup b')).

(** The lines [play_game] prints after the board when [winner] is set. *)
Definition announcement (w : option bool) : list string :=
  match w with
  | Some p => [if p then "X wins" else "O wins"; ""]
  | None => []
  end%string.

(** [boards] are reached one after the other by one move each, from [b]. *)
Fixpoint chain (b : TicTacToeBoard) (boards : list TicTacToeBoard) : Prop :=
  match boards with
  | [] => True
  | b' :: rest => successor b b' ∧ chain b' rest
  end.

(** The dataset after the rounds that lead from [b] through [boards]. *)
Fixpoint game_log (b : TicTacToeBoard) (boards : list TicTacToeBoard)
    (d : dataset) : dataset :=
  match boards with
  | [] => d
  | b' :: rest => game_log b' rest (logged b b' d)
  end.

(** A record codes a 9-cell position without a completed line, its mover is
    the player whose turn it is there, and its action is an Empty cell. *)
Definition record_ok (state : list string) (t : string) (a : nat) : Prop :=
  ∃ (cells : list cell) (u : bool),
    state = state_code <$> cells ∧ t = turn_code (Some u) ∧
    length cells = 9 ∧ cells !! a = Some None ∧
    u = Nat.odd (count_empty cells) ∧ ∀ p, ¬ has_line cells p.

Definition dataset_ok (d : dataset) : Prop :=
  Forall3 record_ok (State d) (Turn d) (Action d).

Section Batch.
(** The block under [if __name__ == "__main__":], up to the dump of [data]:
    [games] games one after the other, each with a new tree, on the same
    [data]. *)
Context {MCTS : Type}.
Variable new_tree : MCTS.
Variable do_rollout : MCTS → TicTacToeBoard → MCTS.
Variable choose : MCTS → TicTacToeBoard → TicTacToeBoard.

Fixpoint play_games (games fuel : nat) (w : world) : option (result world) :=
  match games with
  | 0 => Some (Ok w)
  | S games' =>
      match play_game new_tree do_rollout choose fuel w with
      | Some (Ok w') => play_games games' fuel w'
      | Some (Raise e) => Some (Raise e)
      | None => None
      end
  end.

Definition main (fuel : nat) : option (result world) :=
  play_games 500 fuel (World empty_data []).
End Batch.

(** [tree.choose(board)] returns one of the boards of [find_children], on
    every board of a game that is not terminal. *)
Definition chooses_child {MCTS : Type}
    (choose : MCTS → TicTacToeBoard → TicTacToeBoard) : Prop :=
  ∀ tree b, playable b → terminal b = false → child b (choose tree b).

(** ** Results on [result] *)

Lemma bind_Ok {A B} (f : A → result B) (m : result A) (b : B) :
  m ≫= f = Ok b ↔ ∃ a, m = Ok a ∧ f a = Ok b.
Proof.
  destruct m as [a|e]; simpl; split.
  - eauto.
  - by intros (a' & [= <-] & ?).
  - done.
  - by intros (? & ? & ?).
Qed.

Lemma fmap_Ok {A B} (f : A → B) (m : result A) (b : B) :
  f <$> m = Ok b ↔ ∃ a, m = Ok a ∧ b = f a.
Proof.
  destruct m as [a|e]; simpl; split.
  - intros [= <-]. eauto.
  - by intros (a' & [= <-] & ->).
  - done.
  - by intros (? & ? & ?).
Qed.

Lemma getitem_Ok {A} (t : list A) i v : getitem t i = Ok v ↔ t !! i = Some v.
Proof. unfold getitem. destruct (t !! i); split; congruence. Qed.

Lemma getitem_lt {A} (t : list A) i :
  i < length t → ∃ v, getitem t i = Ok v ∧ t !! i = Some v.
Proof.
  intros [v Hv]%lookup_lt_is_Some_2. exists v. by rewrite getitem_Ok.
Qed.

Lemma mapM_Ok {A B} (f : A → result B) (g : A → B) (l : list A) :
  (∀ a, a ∈ l → f a = Ok (g a)) → mapM f l = Ok (g <$> l).
Proof.
  induction l as [|a l IH]; intros Hf; [done|].
  cbn. rewrite (Hf a) by left. cbn.
  rewrite IH; [done|]. intros a' ?. apply Hf. by right.
Qed.

(** ** Winner detection *)

Lemma winning_combos_lines : _winning_combos = winning_lines.
Proof. reflexivity. Qed.

Lemma is_chain_true c v1 v2 v3 :
  is_chain c v1 v2 v3 = true ↔ v1 = c ∧ v2 = c ∧ v3 = c.
Proof.
  unfold is_chain. rewrite !andb_true_iff, !bool_decide_eq_true.
  split; [intros [[-> ->] ->]|intros (-> & -> & ->)]; done.
Qed.

Lemma is_chain_false c v1 v2 v3 :
  is_chain c v1 v2 v3 = false ↔ ¬ (v1 = c ∧ v2 = c ∧ v3 = c).
Proof. rewrite <-is_chain_true. by destruct (is_chain _ _ _ _). Qed.

Lemma winning_lines_in_range : Forall (in_range 9) winning_lines.
Proof. repeat constructor; simpl; lia. Qed.

(** The loop returns the mark of the first completed line it meets. *)
Lemma find_winner_loop_spec combos t :
  Forall (in_range (length t)) combos →
  ∃ w, find_winner_loop combos t = Ok w ∧
    match w with
    | Some p => ∃ line, line ∈ combos ∧ holds_line t p line
    | None => ∀ p line, line ∈ combos → ¬ holds_line t p line
    end.
Proof.
  induction 1 as [|[[i1 i2] i3] combos (H1 & H2 & H3) _ (w & Hw & IH)]; simpl in *.
  { exists None. split; [done|]. intros ?? []%elem_of_nil. }
  destruct (getitem_lt t i1 H1) as (v1 & -> & Hv1).
  destruct (getitem_lt t i2 H2) as (v2 & -> & Hv2).
  destruct (getitem_lt t i3 H3) as (v3 & -> & Hv3). cbn.
  destruct (is_chain (Some false) v1 v2 v3) eqn:HO.
  { apply is_chain_true in HO as (-> & -> & ->).
    exists (Some false). split; [done|].
    exists (i1, i2, i3). split; [left|done]. }
  destruct (is_chain (Some true) v1 v2 v3) eqn:HX.
  { apply is_chain_true in HX as (-> & -> & ->).
    exists (Some true). split; [done|].
    exists (i1, i2, i3). split; [left|done]. }
  exists w. split; [done|]. destruct w as [p|].
  - destruct IH as (line & ? & ?). exists line. split; [by right|done].
  - intros p line [->|?]%elem_of_cons; [|by apply IH].
    intros (E1 & E2 & E3); simpl in *.
    rewrite Hv1 in E1. rewrite Hv2 in E2. rewrite Hv3 in E3.
    simplify_eq. destruct p.
    + by apply is_chain_false in HX; apply HX.
    + by apply is_chain_false in HO; apply HO.
Qed.

Lemma find_winner_total t :
  length t = 9 →
  ∃ w, _find_winner t = Ok w ∧
    match w with
    | Some p => has_line t p
    | None => ∀ p, ¬ has_line t p
    end.
Proof.
  intros Hlen. unfold _find_winner. rewrite winning_combos_lines.
  destruct (find_winner_loop_spec winning_lines t) as (w & Hw & Hspec).
  { rewrite Hlen. apply winning_lines_in_range. }
  exists w. split; [done|]. destruct w as [p|]; [done|].
  intros p (line & ? & ?). by eapply Hspec.
Qed.

(** ** Empty cells *)

Lemma count_empty_cons v t :
  count_empty (v :: t) = (if bool_decide (v = None) then 1 else 0) + count_empty t.
Proof.
  unfold count_empty. rewrite filter_cons.
  destruct (decide (v = None)) as [->|Hv]; simpl.
  - done.
  - by rewrite bool_decide_eq_false_2.
Qed.

Lemma count_empty_le t : count_empty t ≤ length t.
Proof. apply length_filter. Qed.

Lemma count_empty_pos t : 0 < count_empty t ↔ None ∈ t.
Proof.
  induction t as [|v t IH]; [rewrite elem_of_nil; cbv; lia|].
  rewrite count_empty_cons, elem_of_cons. case_bool_decide; simplify_eq.
  - split; [by left|lia].
  - simpl. rewrite IH. split; [by right|by intros [<-|?]].
Qed.

Lemma any_is_None_true t : any_is_None t = true ↔ None ∈ t.
Proof.
  unfold any_is_None. rewrite existsb_exists. split.
  - intros (v & Hin & ->%bool_decide_eq_true). by apply list_elem_of_In.
  - intros Hin. exists None. split; [by apply list_elem_of_In|done].
Qed.

Lemma any_is_None_count t : any_is_None t = negb (bool_decide (count_empty t = 0)).
Proof.
  apply eq_true_iff_eq. rewrite any_is_None_true, negb_true_iff,
    bool_decide_eq_false, <-count_empty_pos. lia.
Qed.

Lemma count_empty_insert t i p :
  t !! i = Some None → count_empty (<[i:=Some p]> t) + 1 = count_empty t.
Proof.
  revert i. induction t as [|v t IH]; intros [|i] Hi; simplify_eq/=.
  - by rewrite !count_empty_cons, Nat.add_comm.
  - rewrite !count_empty_cons, <-(IH i Hi). lia.
Qed.

Lemma enumerate_spots_from k (t : list cell) :
  (filter (λ iv, iv.2 = None) (imap (λ i v, (k + i, v)) t)).*1 = spots_from k t.
Proof.
  revert k. induction t as [|v t IH]; intros k; [done|].
  rewrite imap_cons, filter_cons.
  assert (imap ((λ i v0, (k + i, v0)) ∘ S) t = imap (λ i v0, (S k + i, v0)) t) as ->.
  { apply imap_ext. intros; simpl. f_equal. lia. }
  specialize (IH (S k)). simpl in *. rewrite Nat.add_0_r.
  destruct (decide (v = None)) as [->|Hv]; simpl.
  - f_equal. exact IH.
  - rewrite bool_decide_eq_false_2 by done. exact IH.
Qed.

Lemma empty_spots_spots_from b : empty_spots b = spots_from 0 (tup b).
Proof. unfold empty_spots, enumerate. by rewrite <-enumerate_spots_from. Qed.

Lemma length_spots_from k t : length (spots_from k t) = count_empty t.
Proof.
  revert k. induction t as [|v t IH]; intros k; [done|].
  rewrite count_empty_cons. simpl. case_bool_decide; simpl; by rewrite IH.
Qed.

Lemma elem_of_spots_from k t j :
  j ∈ spots_from k t ↔ ∃ i, j = k + i ∧ t !! i = Some None.
Proof.
  revert k. induction t as [|v t IH]; intros k; simpl.
  { rewrite elem_of_nil. naive_solver. }
  assert (j ∈ spots_from (S k) t ↔ ∃ i, j = k + S i ∧ (v :: t) !! S i = Some None)
    as Htl.
  { rewrite IH. split; intros (i & -> & ?); exists i; (split; [lia|done]). }
  case_bool_decide as Hv; [rewrite elem_of_cons|]; rewrite Htl; split.
  - intros [->|(i & ? & ?)]; [|by eauto].
    exists 0. split; [lia|]. by rewrite Hv.
  - intros ([|i] & -> & ?); [left; lia|right; eauto].
  - intros (i & ? & ?). eauto.
  - intros ([|i] & -> & ?); simplify_eq/=. eauto.
Qed.

Lemma NoDup_spots_from k t : NoDup (spots_from k t).
Proof.
  revert k. induction t as [|v t IH]; intros k; simpl; [constructor|].
  case_bool_decide; [|done]. constructor; [|done].
  rewrite elem_of_spots_from. intros (i & ? & _). lia.
Qed.

Lemma elem_of_empty_spots b i : i ∈ empty_spots b ↔ tup b !! i = Some None.
Proof.
  rewrite empty_spots_spots_from, elem_of_spots_from. naive_solver.
Qed.

Lemma length_empty_spots b : length (empty_spots b) = count_empty (tup b).
Proof. by rewrite empty_spots_spots_from, length_spots_from. Qed.

Lemma NoDup_empty_spots b : NoDup (empty_spots b).
Proof. rewrite empty_spots_spots_from. apply NoDup_spots_from. Qed.

(** ** [make_move] *)

(** Within the tuple, the two slices around [index] rebuild the tuple with
    the cell at [index] replaced. *)
Lemma slices_insert {A} (t : list A) i v :
  i < length t → take i t ++ [v] ++ drop (i + 1) t = <[i:=v]> t.
Proof. intros Hi. by rewrite Nat.add_1_r, insert_take_drop. Qed.

(** Past the end of the tuple, the mark is appended. *)
Lemma slices_append {A} (t : list A) i v :
  length t ≤ i → take i t ++ [v] ++ drop (i + 1) t = t ++ [v].
Proof.
  intros Hi. rewrite take_ge by done. by rewrite drop_ge by lia.
Qed.

Lemma make_move_Ok b i r b' :
  i < length (tup b) →
  make_move b i r = Ok b' ↔
  ∃ w, _find_winner (<[i:=Some (turn b)]> (tup b)) = Ok w ∧ b' = moved b i r w.
Proof.
  intros Hi. unfold make_move. rewrite slices_insert by done.
  rewrite bind_Ok. unfold moved. naive_solver.
Qed.

Lemma make_move_total b i r :
  length (tup b) = 9 → i < 9 →
  ∃ w, _find_winner (<[i:=Some (turn b)]> (tup b)) = Ok w ∧
       make_move b i r = Ok (moved b i r w).
Proof.
  intros Hlen Hi.
  destruct (find_winner_total (<[i:=Some (turn b)]> (tup b))) as (w & Hw & _).
  { by rewrite length_insert. }
  exists w. split; [done|]. apply make_move_Ok; [lia|eauto].
Qed.

Lemma lookup_Some_lt9 (t : list cell) i v :
  length t = 9 → t !! i = Some v → i < 9.
Proof. intros <- ?. by eapply lookup_lt_Some. Qed.

Lemma has_line_excl t p q :
  ¬ (has_line t X ∧ has_line t O) → has_line t p → has_line t q → p = q.
Proof.
  intros Hex Hp Hq. destruct p, q; try done; destruct Hex; by split.
Qed.

(** C4: on a 9-cell board where at most one player has a completed line,
    [_find_winner] returns a player's mark exactly when one of the 8 winning
    lines (3 rows, 3 columns, 2 diagonals) holds three marks of that player,
    and returns [None] exactly when no line is completed. The lines the code
    scans are these 8. *)
Theorem find_winner_spec (t : list cell) :
  length t = 9 →
  ¬ (has_line t X ∧ has_line t O) →
  _winning_combos = winning_lines ∧
  ∃ w, _find_winner t = Ok w ∧
       (∀ p, w = Some p ↔ has_line t p) ∧
       (w = None ↔ ∀ p, ¬ has_line t p).
Proof.
  intros Hlen Hex. split; [apply winning_combos_lines|].
  destruct (find_winner_total t Hlen) as (w & Hw & Hspec).
  exists w. split; [done|]. destruct w as [q|].
  - split.
    + intros p. split; [by intros [= <-]|].
      intros Hp. f_equal. by apply (has_line_excl t).
    + split; [done|]. intros Hno. by destruct (Hno q).
  - split; [|done]. intros p. split; [done|]. intros Hp. by destruct (Hspec p).
Qed.

Lemma find_winner_spec_witness :
  ∃ w, _find_winner [Some X; Some X; Some X; Some O; Some O; None; None; None; None]
         = Ok w ∧ w = Some X.
Proof.
  destruct (find_winner_spec
    [Some X; Some X; Some X; Some O; Some O; None; None; None; None])
    as (_ & w & Hw & Hline & _).
  - reflexivity.
  - intros [_ (line & Hin & Hl)]. revert Hl.
    repeat (apply elem_of_cons in Hin as [->|Hin]; [by intros (? & ? & ?)|]).
    by apply elem_of_nil in Hin.
  - exists w. split; [exact Hw|]. apply Hline.
    exists (0, 1, 2). split; [left|done].
Defined.

(** C10: on a 9-cell board [make_move] returns a board for every index 0-8,
    whatever the cell at that index holds: the cell becomes the mover's mark
    (an occupied cell is overwritten, nothing is raised) and every other cell
    is the parent's. *)
Theorem make_move_overwrites (b : TicTacToeBoard) (i : nat) (r : bool) :
  length (tup b) = 9 → i < 9 →
  ∃ b', make_move b i r = Ok b' ∧
        length (tup b') = 9 ∧
        tup b' !! i = Some (Some (turn b)) ∧
        ∀ j, j ≠ i → tup b' !! j = tup b !! j.
Proof.
  intros Hlen Hi. destruct (make_move_total b i r Hlen Hi) as (w & _ & ->).
  eexists; split; [done|]. simpl. split_and!.
  - by rewrite length_insert.
  - apply list_lookup_insert_eq. lia.
  - intros j Hj. by apply list_lookup_insert_ne.
Qed.

(** O moves onto the cell 0 that X already holds. *)
Lemma make_move_overwrites_witness :
  ∃ b', make_move
          (TTTB [Some X; None; None; None; None; None; None; None; None]
                O None false false) 0 false = Ok b' ∧
        tup b' = [Some O; None; None; None; None; None; None; None; None].
Proof.
  destruct (make_move_overwrites
    (TTTB [Some X; None; None; None; None; None; None; None; None]
          O None false false) 0 false) as (b' & Hb' & _).
  - reflexivity.
  - lia.
  - exists b'. split; [exact Hb'|]. by injection Hb' as <-.
Defined.

Lemma make_move_ext b1 b2 i r :
  tup b1 = tup b2 → turn b1 = turn b2 → make_move b1 i r = make_move b2 i r.
Proof. intros Ht Hu. unfold make_move. by rewrite Ht, Hu. Qed.

(** C5: the root board and every board [make_move] returns have
    [terminal = true] exactly when [winner] is set or no cell is Empty; and
    [make_move] computes it from the new cells alone: the parent's [winner],
    [terminal] and [rand] do not enter the result. *)
Theorem terminal_iff_winner_or_full :
  (terminal new_tic_tac_toe_board = true ↔
     winner new_tic_tac_toe_board ≠ None ∨ None ∉ tup new_tic_tac_toe_board) ∧
  (∀ b i r b', make_move b i r = Ok b' →
     (terminal b' = true ↔ winner b' ≠ None ∨ None ∉ tup b')) ∧
  (∀ b1 b2 i r, tup b1 = tup b2 → turn b1 = turn b2 →
     make_move b1 i r = make_move b2 i r).
Proof.
  split_and!.
  - simpl. split; [done|]. intros [?|Hfull]; [done|].
    destruct Hfull. by left.
  - intros b i r b' (w & _ & [= <-])%bind_Ok. simpl.
    by rewrite orb_true_iff, bool_decide_eq_true, negb_true_iff,
      <-not_true_iff_false, any_is_None_true.
  - intros b1 b2 i r. apply make_move_ext.
Qed.

Lemma terminal_iff_winner_or_full_witness :
  (∃ b', make_move new_tic_tac_toe_board 4 false = Ok b' ∧
         (terminal b' = true ↔ winner b' ≠ None ∨ None ∉ tup b')) ∧
  make_move (TTTB (replicate 9 None) X (Some O) true true) 4 false
    = make_move new_tic_tac_toe_board 4 false.
Proof.
  destruct terminal_iff_winner_or_full as (_ & Hmove & Hstale). split.
  - eexists. split; [reflexivity|].
    by apply (Hmove new_tic_tac_toe_board 4 false).
  - apply Hstale; reflexivity.
Defined.

(** ** [find_children] *)

Lemma make_move_move_to b i r :
  length (tup b) = 9 → i < 9 → make_move b i r = Ok (move_to b r i).
Proof.
  intros Hlen Hi. destruct (make_move_total b i r Hlen Hi) as (w & Hw & ->).
  unfold move_to, winner_of. by rewrite Hw.
Qed.

Lemma find_winner_move_to b i r :
  length (tup b) = 9 → _find_winner (tup (move_to b r i)) = Ok (winner (move_to b r i)).
Proof.
  intros Hlen. simpl. unfold winner_of.
  destruct (find_winner_total (<[i:=Some (turn b)]> (tup b))) as (w & -> & _);
    [by rewrite length_insert|done].
Qed.

Lemma move_to_differs b r i j :
  tup b !! i = Some None →
  tup (move_to b r i) !! j ≠ tup b !! j ↔ j = i.
Proof.
  intros Hi. simpl. split.
  - intros Hne. destruct (decide (j = i)) as [|Hji]; [done|].
    by rewrite list_lookup_insert_ne in Hne.
  - intros ->. rewrite list_lookup_insert_eq by by eapply lookup_lt_Some.
    by rewrite Hi.
Qed.

Lemma move_to_inj b r i j :
  tup b !! i = Some None → tup b !! j = Some None →
  move_to b r i = move_to b r j → i = j.
Proof.
  intros Hi Hj Heq. apply (move_to_differs b r j i Hj). rewrite <-Heq.
  simpl. rewrite list_lookup_insert_eq by by eapply lookup_lt_Some.
  by rewrite Hi.
Qed.

Lemma find_children_Ok b :
  length (tup b) = 9 → terminal b = false →
  find_children b = Ok (list_to_set (move_to b false <$> empty_spots b)).
Proof.
  intros Hlen Hterm. unfold find_children. rewrite Hterm.
  rewrite (mapM_Ok _ (move_to b false)); [done|].
  intros i Hi%elem_of_empty_spots. apply make_move_move_to; [done|].
  by eapply lookup_Some_lt9.
Qed.

Lemma elem_of_children b b' :
  length (tup b) = 9 →
  b' ∈ (list_to_set (move_to b false <$> empty_spots b) : gset _) ↔
  ∃ i, tup b !! i = Some None ∧ make_move b i false = Ok b'.
Proof.
  intros Hlen. rewrite elem_of_list_to_set, list_elem_of_fmap.
  split; intros (i & H1 & H2); exists i.
  - apply elem_of_empty_spots in H2. split; [done|]. subst b'.
    apply make_move_move_to; [done|]. by eapply lookup_Some_lt9.
  - rewrite elem_of_empty_spots. split; [|done].
    rewrite make_move_move_to in H2; [congruence|done|].
    by eapply lookup_Some_lt9.
Qed.

(** C2: [find_children] returns the empty set on a terminal board. On a
    9-cell board that is not terminal it returns a set with exactly one
    successor per Empty cell: as many boards as Empty cells, a board is in the
    set exactly when it is [make_move] at an Empty cell, and two Empty cells
    give two boards. Each successor has the mover's mark in that cell, the
    turn flipped, [winner] and [terminal] recomputed from the new cells, and
    differs from the parent in that cell and in no other. *)
Theorem find_children_spec (b : TicTacToeBoard) :
  (terminal b = true → find_children b = Ok ∅) ∧
  (length (tup b) = 9 → terminal b = false →
   ∃ kids : gset TicTacToeBoard,
     find_children b = Ok kids ∧
     size kids = count_empty (tup b) ∧
     (∀ b', b' ∈ kids ↔ ∃ i, tup b !! i = Some None ∧ make_move b i false = Ok b') ∧
     (∀ i, tup b !! i = Some None → ∃ b', make_move b i false = Ok b' ∧ b' ∈ kids) ∧
     (∀ i j b', tup b !! i = Some None → tup b !! j = Some None →
        make_move b i false = Ok b' → make_move b j false = Ok b' → i = j) ∧
     (∀ i b', tup b !! i = Some None → make_move b i false = Ok b' →
        tup b' = <[i:=Some (turn b)]> (tup b) ∧
        turn b' = negb (turn b) ∧
        _find_winner (tup b') = Ok (winner b') ∧
        (terminal b' = true ↔ winner b' ≠ None ∨ None ∉ tup b') ∧
        rand b' = false ∧
        ∀ j, tup b' !! j ≠ tup b !! j ↔ j = i)).
Proof.
  split.
  { intros Hterm. unfold find_children. by rewrite Hterm. }
  intros Hlen Hterm. eexists. split; [by apply find_children_Ok|].
  assert (∀ i b', tup b !! i = Some None → make_move b i false = Ok b' →
            b' = move_to b false i) as Hmove.
  { intros i b' Hi Hb'. rewrite make_move_move_to in Hb'; [congruence|done|].
    by eapply lookup_Some_lt9. }
  split_and!.
  - rewrite size_list_to_set, length_fmap; [apply length_empty_spots|].
    apply NoDup_fmap_2_strong; [|apply NoDup_empty_spots].
    intros i j Hi%elem_of_empty_spots Hj%elem_of_empty_spots.
    by apply move_to_inj.
  - intros b'. by apply elem_of_children.
  - intros i Hi. exists (move_to b false i).
    assert (make_move b i false = Ok (move_to b false i)) as Hb'.
    { apply make_move_move_to; [done|]. by eapply lookup_Some_lt9. }
    split; [done|]. apply elem_of_children; eauto.
  - intros i j b' Hi Hj ->%Hmove Hb'%Hmove; [|done..].
    by eapply move_to_inj.
  - intros i b' Hi ->%Hmove; [|done]. split_and!; try done.
    + by apply find_winner_move_to.
    + simpl. by rewrite orb_true_iff, bool_decide_eq_true, negb_true_iff,
        <-not_true_iff_false, any_is_None_true.
    + intros j. by apply move_to_differs.
Qed.

Lemma find_children_spec_witness :
  find_children (TTTB (replicate 9 (Some X)) O (Some X) true false) = Ok ∅ ∧
  ∃ kids : gset TicTacToeBoard,
    find_children new_tic_tac_toe_board = Ok kids ∧ size kids = 9.
Proof.
  split.
  - by apply (find_children_spec (TTTB (replicate 9 (Some X)) O (Some X) true false)).
  - destruct (find_children_spec new_tic_tac_toe_board) as [_ Hnt].
    destruct Hnt as (kids & HS & Hsize & _); [reflexivity..|].
    exists kids. split; [exact HS|exact Hsize].
Defined.

(** ** Boards of a game *)

Lemma mapM_Ok_inv {A B} (f : A → result B) (l : list A) (l' : list B) y :
  mapM f l = Ok l' → y ∈ l' → ∃ x, x ∈ l ∧ f x = Ok y.
Proof.
  revert l'. induction l as [|a l IH]; intros l'; cbn.
  { intros [= <-] []%elem_of_nil. }
  intros (b & Hb & (k & Hk & [= <-])%bind_Ok)%bind_Ok [->|Hy]%elem_of_cons.
  - exists a. split; [left|done].
  - destruct (IH k Hk Hy) as (x & ? & ?). exists x. split; [by right|done].
Qed.

Lemma child_successor b b' : child b b' → successor b b'.
Proof.
  intros (kids & HS & Hin). unfold find_children in HS.
  destruct (terminal b) eqn:Hterm.
  { injection HS as <-. by apply not_elem_of_empty in Hin. }
  apply fmap_Ok in HS as (l & Hl & ->). apply elem_of_list_to_set in Hin.
  destruct (mapM_Ok_inv _ _ _ _ Hl Hin) as (i & Hi%elem_of_empty_spots & Hb').
  split; [done|]. by exists i, false.
Qed.

Lemma make_move_child b i b' :
  length (tup b) = 9 → terminal b = false → tup b !! i = Some None →
  make_move b i false = Ok b' → child b b'.
Proof.
  intros Hlen Hterm Hi Hb'. eexists. split; [by apply find_children_Ok|].
  apply elem_of_children; eauto.
Qed.

Lemma reachable_playable b : reachable b → playable b.
Proof. apply rtc_subrel. intros ??. apply child_successor. Qed.

Lemma consistent_root : consistent new_tic_tac_toe_board.
Proof. by split. Qed.

Lemma find_winner_None t :
  length t = 9 → _find_winner t = Ok None → ∀ p, ¬ has_line t p.
Proof.
  intros Hlen Hw. destruct (find_winner_total t Hlen) as (w & Hw' & Hspec).
  rewrite Hw in Hw'. by injection Hw' as <-.
Qed.

Lemma find_winner_Some t p :
  length t = 9 → _find_winner t = Ok (Some p) → has_line t p.
Proof.
  intros Hlen Hw. destruct (find_winner_total t Hlen) as (w & Hw' & Hspec).
  rewrite Hw in Hw'. by injection Hw' as <-.
Qed.

(** A line of the player who did not move was there before the move. *)
Lemma holds_line_before t i p line :
  holds_line (<[i:=Some (negb p)]> t) p line → holds_line t p line.
Proof.
  assert (∀ j, <[i:=Some (negb p)]> t !! j = Some (Some p) → t !! j = Some (Some p))
    as Hj.
  { intros j. destruct (decide (i = j)) as [->|Hne].
    - intros Hl. assert (j < length t) as Hlt.
      { apply lookup_lt_Some in Hl. by rewrite length_insert in Hl. }
      rewrite list_lookup_insert_eq in Hl by done. by destruct p.
    - by rewrite list_lookup_insert_ne. }
  intros (? & ? & ?). split_and!; by apply Hj.
Qed.

Lemma terminal_false_winner b :
  consistent b → terminal b = false → winner b = None ∧ 0 < count_empty (tup b).
Proof.
  intros [_ _ Hterm _ _]. rewrite Hterm, orb_false_iff, bool_decide_eq_false,
    negb_false_iff, any_is_None_true, count_empty_pos.
  intros [Hw ?]. split; [|done]. by destruct (winner b); [destruct Hw|].
Qed.

Lemma successor_consistent b b' : consistent b → successor b b' → consistent b'.
Proof.
  intros Hb (Hterm & i & r & Hi & Hb').
  destruct (terminal_false_winner b Hb Hterm) as [Hnone _].
  destruct Hb as [Hlen Hwin _ Hturn _].
  assert (i < 9) as Hlt by by eapply lookup_Some_lt9.
  rewrite make_move_move_to in Hb' by done. injection Hb' as <-.
  assert (length (tup (move_to b r i)) = 9) as Hlen'.
  { simpl. by rewrite length_insert. }
  split.
  - done.
  - by apply find_winner_move_to.
  - done.
  - simpl. transitivity (negb (Nat.odd (count_empty (tup b)))); [by rewrite <-Hturn|].
    rewrite <-(count_empty_insert (tup b) i (turn b) Hi).
    by rewrite Nat.add_1_r, Nat.odd_succ, Nat.negb_even.
  - intros Hw. pose proof (find_winner_move_to b i r Hlen) as Hfw.
    rewrite Hw in Hfw. apply find_winner_Some in Hfw as (line & Hin & Hl); [|done].
    rewrite Hnone in Hwin. apply (find_winner_None _ Hlen Hwin (negb (turn b))).
    exists line. split; [done|]. apply (holds_line_before _ i).
    by rewrite negb_involutive.
Qed.

Lemma playable_consistent b : playable b → consistent b.
Proof.
  revert b. apply rtc_ind_r.
  - apply consistent_root.
  - intros b b' _ Hstep IH. by eapply successor_consistent.
Qed.

Lemma successor_count_empty b b' :
  consistent b → successor b b' → count_empty (tup b') + 1 = count_empty (tup b).
Proof.
  intros [Hlen _ _ _ _] (_ & i & r & Hi & Hb').
  rewrite make_move_move_to in Hb'; [|done|by eapply lookup_Some_lt9].
  injection Hb' as <-. simpl. by apply count_empty_insert.
Qed.

Lemma nsteps_count_empty n b b' :
  consistent b → nsteps successor n b b' →
  consistent b' ∧ count_empty (tup b') + n = count_empty (tup b).
Proof.
  intros Hb Hsteps. induction Hsteps as [|n b b1 b' Hstep _ IH].
  - split; [done|lia].
  - destruct IH as [? IH]; [by eapply successor_consistent|].
    split; [done|]. rewrite <-(successor_count_empty b b1) by done. lia.
Qed.

Lemma reachable_after moves b :
  reachable b → legal moves b = true → reachable (after moves b).
Proof.
  revert b. induction moves as [|i moves IH]; intros b Hb; simpl; [done|].
  rewrite !andb_true_iff, negb_true_iff, bool_decide_eq_true.
  intros [[Hterm Hi] Hlegal]. apply IH; [|done].
  eapply rtc_r; [exact Hb|].
  assert (length (tup b) = 9) as Hlen.
  { by apply consistent_length, playable_consistent, reachable_playable. }
  apply (make_move_child b i); [done..|].
  apply make_move_move_to; [done|]. by eapply lookup_Some_lt9.
Qed.

Lemma terminal_no_child b b' : terminal b = true → ¬ child b b'.
Proof. by intros Hterm [Hterm' _]%child_successor; congruence. Qed.

Lemma winner_terminal b p : consistent b → winner b = Some p → terminal b = true.
Proof. intros [_ _ -> _ _] ->. done. Qed.

(** C6: on every board reachable from the root by [find_children], [winner]
    is exactly one of unset, X and O; and once it is set the board has no
    successor, so every board a further sequence of moves leads to has the
    same winner. *)
Theorem winner_never_reassigned (b : TicTacToeBoard) :
  reachable b →
  ((winner b = None ∧ winner b ≠ Some X ∧ winner b ≠ Some O) ∨
   (winner b ≠ None ∧ winner b = Some X ∧ winner b ≠ Some O) ∨
   (winner b ≠ None ∧ winner b ≠ Some X ∧ winner b = Some O)) ∧
  ∀ p, winner b = Some p →
    find_children b = Ok ∅ ∧
    (∀ b', ¬ child b b') ∧
    (∀ b', rtc child b b' → winner b' = Some p).
Proof.
  intros Hb. split.
  { destruct (winner b) as [[]|]; naive_solver. }
  intros p Hp.
  assert (terminal b = true) as Hterm.
  { eapply winner_terminal; [|done].
    by apply playable_consistent, reachable_playable. }
  split_and!.
  - unfold find_children. by rewrite Hterm.
  - intros b'. by apply terminal_no_child.
  - intros b' Hsteps. destruct Hsteps as [|b b1 b' Hstep _]; [done|].
    by apply terminal_no_child in Hstep.
Qed.

(** X completes the top row: X 0, O 3, X 1, O 4, X 2. *)
Lemma winner_never_reassigned_witness :
  winner (after [0; 3; 1; 4; 2] new_tic_tac_toe_board) = Some X ∧
  ∀ b', rtc child (after [0; 3; 1; 4; 2] new_tic_tac_toe_board) b' →
        winner b' = Some X.
Proof.
  split; [reflexivity|].
  apply (winner_never_reassigned (after [0; 3; 1; 4; 2] new_tic_tac_toe_board)).
  - apply reachable_after; [apply rtc_refl|reflexivity].
  - reflexivity.
Defined.

(** ** [reward] *)

(** The value of [reward] on each terminal board. *)
Lemma reward_cases b :
  terminal b = true →
  reward b =
    match winner b with
    | Some p =>
        if bool_decide (p = turn b) then Raise (RuntimeError unreachable_board)
        else Ok (-1)%Z
    | None => if turn b then Ok (-1)%Z else Ok 0%Z
    end.
Proof.
  destruct b as [t u w e r]; simpl. intros ->. unfold reward; simpl.
  by destruct w as [[]|], u.
Qed.

(** The last raise of [reward] is never reached. *)
Lemma reward_known_winner b : reward b ≠ Raise (RuntimeError unknown_winner_type).
Proof.
  destruct b as [t u w [] r]; [|done]. rewrite reward_cases by done. simpl.
  by destruct w as [[]|], u.
Qed.

(** C3: [reward] raises exactly when the board is not terminal, or is
    terminal with the player to move as winner; on every other terminal board
    it returns a value. The two failures are the first and the second raise. *)
Theorem reward_raises_iff (b : TicTacToeBoard) :
  ((∃ e, reward b = Raise e) ↔
     terminal b = false ∨ (terminal b = true ∧ winner b = Some (turn b))) ∧
  (terminal b = false → reward b = Raise (RuntimeError nonterminal_board)) ∧
  (terminal b = true → winner b = Some (turn b) →
     reward b = Raise (RuntimeError unreachable_board)) ∧
  (terminal b = true → winner b ≠ Some (turn b) → ∃ z, reward b = Ok z).
Proof.
  destruct b as [t u w e r]; simpl.
  destruct e, w as [[]|], u; unfold reward; simpl; split_and!;
    try (intros; congruence); try (intros; eexists; reflexivity);
    try (split; [intros [? ?]|intros [?|[? ?]]]; first [congruence|eauto]).
Qed.

Lemma reward_raises_iff_witness :
  reward new_tic_tac_toe_board = Raise (RuntimeError nonterminal_board) ∧
  reward (TTTB (replicate 9 (Some X)) X (Some X) true false)
    = Raise (RuntimeError unreachable_board) ∧
  ∃ z, reward (TTTB (replicate 9 (Some X)) O (Some X) true false) = Ok z.
Proof.
  split_and!.
  - by apply (reward_raises_iff new_tic_tac_toe_board).
  - by apply (reward_raises_iff (TTTB (replicate 9 (Some X)) X (Some X) true false)).
  - by apply (reward_raises_iff (TTTB (replicate 9 (Some X)) O (Some X) true false)).
Defined.


(** On the boards of a game [reward] is as the comments of the code say: -1
    when the opponent of the player to move has won, 0 on a draw, and no
    raise. *)
Lemma reward_playable b :
  playable b → terminal b = true →
  reward b = Ok (match winner b with Some _ => -1 | None => 0 end)%Z.
Proof.
  intros Hb%playable_consistent Hterm. rewrite reward_cases by done.
  destruct Hb as [_ _ Hterm' Hturn Hloser]. destruct (winner b) as [p|].
  - rewrite bool_decide_eq_false_2; [done|]. by intros ->.
  - rewrite Hterm in Hterm'. simpl in Hterm'. symmetry in Hterm'.
    rewrite any_is_None_count, negb_involutive, bool_decide_eq_true in Hterm'.
    by rewrite Hturn, Hterm'.
Qed.

(** ** The scenarios of the specification *)

Example center_move :
  make_move new_tic_tac_toe_board 4 false
  = Ok (TTTB [None; None; None; None; Some X; None; None; None; None]
             O None false false).
Proof. reflexivity. Qed.

Example top_row_wins :
  make_move (TTTB [Some X; Some X; None; Some O; Some O; None; None; None; None]
                  X None false false) 2 false
  = Ok (TTTB [Some X; Some X; Some X; Some O; Some O; None; None; None; None]
             O (Some X) true false).
Proof. reflexivity. Qed.

Example draw_O_to_move :
  reward (TTTB (tup drawn_X_to_move) O None true false) = Ok 0%Z.
Proof. reflexivity. Qed.

Example loss_for_the_mover :
  reward (TTTB [Some X; Some X; Some X; Some O; Some O; None; None; None; None]
               O (Some X) true false) = Ok (-1)%Z.
Proof. reflexivity. Qed.

(** Past the end of the tuple the slices of [make_move] append the mark. *)
Example move_past_the_end :
  tup <$> make_move new_tic_tac_toe_board 12 false
  = Ok (replicate 9 None ++ [Some X]).
Proof. reflexivity. Qed.

(** ** The self-play driver *)

Lemma to_pretty_string_Ok b :
  length (tup b) = 9 → ∃ s, to_pretty_string b = Ok s.
Proof.
  destruct b as [t u w e r]; simpl. intros Hlen.
  do 9 (destruct t as [|? t]; [done|]). destruct t; [|done].
  eexists. reflexivity.
Qed.

Lemma append_actions_Ok indices old new actions :
  Forall (λ i, i < length old ∧ i < length new) indices →
  append_actions indices old new actions
    = Ok (actions ++ filter (λ i, old !! i ≠ new !! i) indices).
Proof.
  intros Hin. revert actions.
  induction Hin as [|i indices [Ho Hn] _ IH]; intros actions.
  { simpl. by rewrite app_nil_r. }
  rewrite filter_cons. cbn [append_actions].
  destruct (getitem_lt old i Ho) as (a & -> & Ha).
  destruct (getitem_lt new i Hn) as (b & -> & Hb). cbn [mbind result_bind].
  rewrite IH, Ha, Hb. case_bool_decide as Hab.
  - rewrite decide_True by congruence. by rewrite <-app_assoc.
  - rewrite decide_False; [done|]. intros Hne. apply Hne. congruence.
Qed.

Lemma filter_eq_range9 i : i < 9 → filter (λ j, j = i) (range 0 9 1) = [i].
Proof. intros Hi. do 9 (destruct i as [|i]; [reflexivity|]). lia. Qed.

(** Between a board and its successor at [i], the loop over [range(9)]
    appends [i] and nothing else. *)
Lemma append_actions_move b r i actions :
  length (tup b) = 9 → tup b !! i = Some None →
  append_actions (range 0 9 1) (tup b) (tup (move_to b r i)) actions
    = Ok (actions ++ [i]).
Proof.
  intros Hlen Hi. rewrite append_actions_Ok.
  - f_equal. f_equal. rewrite <-(filter_eq_range9 i) by by eapply lookup_Some_lt9.
    apply list_filter_iff. intros j. rewrite <-(move_to_differs b r i j Hi).
    split; intros Hne Heq; by apply Hne.
  - simpl. rewrite length_insert, Hlen. repeat constructor; simpl; lia.
Qed.

Lemma record_transition_move b i r b' d :
  length (tup b) = 9 → tup b !! i = Some None → make_move b i r = Ok b' →
  record_transition b b' d = Ok (if r then d else recorded b i d).
Proof.
  intros Hlen Hi Hb'.
  rewrite make_move_move_to in Hb'; [|done|by eapply lookup_Some_lt9].
  injection Hb' as <-. unfold record_transition.
  destruct r; simpl; [done|].
  pose proof (append_actions_move b false i (Action d) Hlen Hi) as Hact.
  simpl in Hact. by rewrite Hact.
Qed.

Lemma lockstep_recorded b i d : lockstep d → lockstep (recorded b i d).
Proof.
  intros [H1 H2]. split; simpl; rewrite !length_app; simpl; lia.
Qed.

Lemma make_move_length b i r b' :
  length (tup b) = 9 → i < 9 → make_move b i r = Ok b' → length (tup b') = 9.
Proof.
  intros Hlen Hi Hb'. rewrite make_move_move_to in Hb' by done.
  injection Hb' as <-. simpl. by rewrite length_insert.
Qed.

Lemma play_round_move {MCTS : Type} (do_rollout : MCTS → TicTacToeBoard → MCTS)
    (choose : MCTS → TicTacToeBoard → TicTacToeBoard) tree b w i r :
  let tree' := Nat.iter 100 (λ t, do_rollout t b) tree in
  length (tup b) = 9 → tup b !! i = Some None →
  make_move b i r = Ok (choose tree' b) →
  ∃ out, play_round do_rollout choose tree b w
         = Ok (tree', choose tree' b,
               World (if r then data w else recorded b i (data w)) out).
Proof.
  intros tree' Hlen Hi Hb'. unfold play_round. cbv zeta. fold tree'.
  rewrite (record_transition_move b i r _ _ Hlen Hi Hb'). cbn [mbind result_bind].
  destruct (to_pretty_string_Ok (choose tree' b)) as (s & ->).
  { eapply make_move_length; [done| |done]. by eapply lookup_Some_lt9. }
  cbn [mbind result_bind]. case_bool_decide; eexists; reflexivity.
Qed.

(** C9: in a round of the driver whose chosen board is the successor of the
    current board at the Empty cell [i], the dataset gets a record exactly
    when the chosen board's [rand] is false. The record's State entry is the
    9 cells of the board before the move, coded "0", "1", "-1" for Empty, X,
    O; its Turn entry is the mover's code ("1" for X, "-1" for O, "0" for
    anything else); its Action entry is [i], the one index at which the two
    boards differ; and the three sequences, of equal lengths before the
    round, are of equal lengths after it. *)
Theorem play_round_records {MCTS : Type}
    (do_rollout : MCTS → TicTacToeBoard → MCTS)
    (choose : MCTS → TicTacToeBoard → TicTacToeBoard)
    (tree : MCTS) (b : TicTacToeBoard) (w : world) (i : nat) (r : bool) :
  let tree' := Nat.iter 100 (λ t, do_rollout t b) tree in
  let b' := choose tree' b in
  length (tup b) = 9 → tup b !! i = Some None → make_move b i r = Ok b' →
  ∃ w', play_round do_rollout choose tree b w = Ok (tree', b', w') ∧
    (rand b' = true → data w' = data w) ∧
    (rand b' = false →
       State (data w') = State (data w) ++ [state_code <$> tup b] ∧
       Turn (data w') = Turn (data w) ++ [turn_code (Some (turn b))] ∧
       Action (data w') = Action (data w) ++ [i]) ∧
    (data w' ≠ data w ↔ rand b' = false) ∧
    length (state_code <$> tup b) = 9 ∧
    (state_code None = "0" ∧ state_code (Some X) = "1" ∧
     state_code (Some O) = "-1")%string ∧
    (turn_code (Some X) = "1" ∧ turn_code (Some O) = "-1" ∧
     turn_code None = "0")%string ∧
    (∀ j, tup b !! j ≠ tup b' !! j ↔ j = i) ∧
    (lockstep (data w) → lockstep (data w')).
Proof.
  intros tree' b' Hlen Hi Hb'.
  destruct (play_round_move do_rollout choose tree b w i r Hlen Hi Hb')
    as (out & Hround).
  fold tree' b' in Hround. eexists. split; [exact Hround|].
  assert (i < 9) as Hlt by by eapply lookup_Some_lt9.
  assert (b' = move_to b r i) as Hmove.
  { rewrite make_move_move_to in Hb' by done. congruence. }
  assert (rand b' = r) as Hr by by rewrite Hmove.
  rewrite Hr. simpl. split_and!; try done.
  - by intros ->.
  - by intros ->.
  - destruct r; split; try done.
    intros _ Heq. apply (f_equal (λ d, length (Action d))) in Heq.
    simpl in Heq. rewrite length_app in Heq. simpl in Heq. lia.
  - by rewrite length_fmap.
  - intros j. rewrite Hmove, <-(move_to_differs b r i j Hi).
    split; intros Hne Heq; by apply Hne.
  - destruct r; [done|]. apply lockstep_recorded.
Qed.

(** ** The search engine's contract *)

Section Engine.
Context {MCTS : Type}.
Variable new_tree : MCTS.
Variable do_rollout : MCTS → TicTacToeBoard → MCTS.
Variable choose : MCTS → TicTacToeBoard → TicTacToeBoard.
Hypothesis choose_successor : chooses_successor choose.

Lemma play_round_playable tree b w :
  playable b → terminal b = false →
  ∃ tree' b' w', play_round do_rollout choose tree b w = Ok (tree', b', w') ∧
    successor b b' ∧ playable b' ∧
    (lockstep (data w) → lockstep (data w')).
Proof.
  intros Hb Hterm.
  pose proof (choose_successor (Nat.iter 100 (λ t, do_rollout t b) tree) b
                Hb Hterm) as Hsucc.
  pose proof Hsucc as (_ & i & r & Hi & Hb').
  assert (length (tup b) = 9) as Hlen
    by by apply consistent_length, playable_consistent.
  destruct (play_round_move do_rollout choose tree b w i r Hlen Hi Hb')
    as (out & Hround).
  eexists _, _, _. split_and!; [done..| |].
  - by eapply rtc_r.
  - simpl. destruct r; [done|]. apply lockstep_recorded.
Qed.

(** The loop returns within as many rounds as the board has Empty cells. *)
Lemma play_loop_returns fuel tree b w :
  playable b → terminal b = false → count_empty (tup b) ≤ fuel →
  ∃ w', play_loop do_rollout choose fuel tree b w = Some (Ok w') ∧
        (lockstep (data w) → lockstep (data w')).
Proof.
  revert tree b w. induction fuel as [|fuel IH]; intros tree b w Hb Hterm Hfuel.
  { destruct (terminal_false_winner b) as [_ ?];
      [by apply playable_consistent|done|lia]. }
  destruct (play_round_playable tree b w Hb Hterm)
    as (tree' & b' & w' & Hround & Hsucc & Hb' & Hlock).
  cbn [play_loop]. rewrite Hround.
  destruct (terminal b') eqn:Hterm'; [by eauto|].
  destruct (IH tree' b' w' Hb' Hterm') as (w'' & -> & Hlock').
  { apply successor_count_empty in Hsucc; [lia|by apply playable_consistent]. }
  eauto.
Qed.

Lemma play_game_returns w :
  ∃ w', play_game new_tree do_rollout choose 9 w = Some (Ok w') ∧
        (lockstep (data w) → lockstep (data w')).
Proof.
  apply play_loop_returns; [apply rtc_refl|done|].
  by apply Nat.eq_le_incl.
Qed.
End Engine.

Lemma first_child_successor : chooses_successor (λ _ : unit, first_child).
Proof.
  intros _ b Hb%playable_consistent Hterm. split; [done|].
  destruct (terminal_false_winner b Hb Hterm) as [_ Hpos].
  rewrite <-length_empty_spots in Hpos. unfold first_child.
  pose proof (elem_of_empty_spots b) as Hspots.
  destruct (empty_spots b) as [|i spots]; [simpl in Hpos; lia|].
  assert (tup b !! i = Some None) as Hi by (apply Hspots; left).
  exists i, false. split; [done|]. apply make_move_move_to.
  - by apply consistent_length.
  - eapply lookup_Some_lt9; [|done]. by apply consistent_length.
Qed.

Lemma make_move_count_empty b i r b' :
  tup b !! i = Some None → make_move b i r = Ok b' →
  count_empty (tup b') + 1 = count_empty (tup b).
Proof.
  intros Hi Hb'. apply make_move_Ok in Hb' as (w & _ & ->);
    [|by eapply lookup_lt_Some].
  simpl. by apply count_empty_insert.
Qed.

Lemma playable_has_child b : playable b → terminal b = false → ∃ b', child b b'.
Proof.
  intros Hb%playable_consistent Hterm.
  destruct (terminal_false_winner b Hb Hterm) as [_ Hpos].
  apply count_empty_pos, list_elem_of_lookup in Hpos as [i Hi].
  pose proof (consistent_length b Hb) as Hlen.
  exists (move_to b false i). apply (make_move_child b i); [done..|].
  apply make_move_move_to; [done|]. by eapply lookup_Some_lt9.
Qed.

(** C7: a move to an Empty cell leaves one Empty cell fewer; a sequence of
    [n] moves from the root has [n ≤ 9] and leaves [9 - n] Empty cells, and
    after 9 moves the board is terminal and [find_children] is empty; a board
    of a game that is not terminal has a move, so a game only stops on a
    terminal board; and with an engine that chooses a successor, the loop of
    [play_game] returns within 9 rounds. *)
Theorem self_play_terminates :
  (∀ b i r b', tup b !! i = Some None → make_move b i r = Ok b' →
     count_empty (tup b') + 1 = count_empty (tup b)) ∧
  (∀ n b, nsteps successor n new_tic_tac_toe_board b →
     n ≤ 9 ∧ count_empty (tup b) = 9 - n ∧
     (n = 9 → terminal b = true ∧ find_children b = Ok ∅)) ∧
  (∀ b, playable b → terminal b = false → ∃ b', child b b') ∧
  (∀ (MCTS : Type) (new_tree : MCTS) do_rollout choose,
     chooses_successor choose →
     ∀ w, ∃ w', play_game new_tree do_rollout choose 9 w = Some (Ok w')).
Proof.
  split_and!.
  - apply make_move_count_empty.
  - intros n b Hsteps.
    destruct (nsteps_count_empty n _ b consistent_root Hsteps) as [Hb Hcount].
    change (count_empty (tup new_tic_tac_toe_board)) with 9 in Hcount.
    split_and!; [lia..|]. intros ->.
    assert (terminal b = true) as Hterm.
    { rewrite (consistent_terminal b Hb), any_is_None_count.
      rewrite (bool_decide_eq_true_2 (count_empty (tup b) = 0)) by lia.
      apply orb_true_r. }
    split; [done|]. unfold find_children. by rewrite Hterm.
  - apply playable_has_child.
  - intros MCTS new_tree do_rollout choose Hchoose w.
    destruct (play_game_returns new_tree do_rollout choose Hchoose w)
      as (w' & Hw' & _).
    by exists w'.
Qed.

Lemma self_play_terminates_witness :
  count_empty (tup (move_to new_tic_tac_toe_board false 4)) + 1 = 9 ∧
  (1 ≤ 9 ∧ count_empty (tup (move_to new_tic_tac_toe_board false 4)) = 9 - 1) ∧
  ∃ w', play_game tt (λ t _, t) (λ _ : unit, first_child) 9 (World empty_data [])
        = Some (Ok w').
Proof.
  destruct self_play_terminates as (Hmove & Hsteps & _ & Hgame).
  split_and!.
  - apply (Hmove new_tic_tac_toe_board 4 false); reflexivity.
  - lia.
  - apply (Hsteps 1). eapply nsteps_l; [|apply nsteps_O].
    split; [reflexivity|]. exists 4, false. split; reflexivity.
  - apply Hgame. exact first_child_successor.
Defined.

Lemma play_round_records_witness :
  ∃ w', play_round (λ (t : unit) _, t) (λ _, first_child) tt
          new_tic_tac_toe_board (World empty_data [])
        = Ok (tt, first_child new_tic_tac_toe_board, w') ∧
        State (data w') = [replicate 9 "0"%string] ∧
        Turn (data w') = ["1"%string] ∧
        Action (data w') = [0].
Proof.
  destruct (play_round_records (λ (t : unit) _, t) (λ _, first_child) tt
              new_tic_tac_toe_board (World empty_data []) 0 false)
    as (w' & Hround & _ & Hrec & _); [reflexivity..|].
  exists w'. split; [exact Hround|]. apply Hrec. reflexivity.
Defined.

(** ** Reading the dataset back *)

Lemma decode_state_code v : decode_cell (state_code v) = Some v.
Proof. by destruct v as [[]|]. Qed.

Lemma decode_turn_code u : decode_turn (turn_code (Some u)) = Some u.
Proof. by destruct u. Qed.

Lemma decode_board_codes t u :
  decode_board (state_code <$> t) (turn_code (Some u)) = Some (board_of t u).
Proof.
  unfold decode_board.
  rewrite (mapM_fmap_Some decode_cell state_code t decode_state_code).
  simpl. by rewrite decode_turn_code.
Qed.

Lemma play_round_board {MCTS : Type} (do_rollout : MCTS → TicTacToeBoard → MCTS)
    (choose : MCTS → TicTacToeBoard → TicTacToeBoard) tree b w tree' b' w' :
  play_round do_rollout choose tree b w = Ok (tree', b', w') →
  tree' = Nat.iter 100 (λ t, do_rollout t b) tree ∧ b' = choose tree' b.
Proof.
  unfold play_round. cbv zeta.
  intros (d & _ & (s & _ & [= <- <- _])%bind_Ok)%bind_Ok. done.
Qed.

(** A recorded round: the dataset after it. *)
Lemma play_round_recorded {MCTS : Type} (do_rollout : MCTS → TicTacToeBoard → MCTS)
    (choose : MCTS → TicTacToeBoard → TicTacToeBoard) tree b w tree' b' w' :
  length (tup b) = 9 → successor b b' → rand b' = false →
  play_round do_rollout choose tree b w = Ok (tree', b', w') →
  ∃ i, tup b !! i = Some None ∧ make_move b i false = Ok b' ∧
       data w' = recorded b i (data w).
Proof.
  intros Hlen (_ & i & r & Hi & Hb') Hrand Hround.
  assert (r = false) as ->.
  { rewrite make_move_move_to in Hb'; [|done|by eapply lookup_Some_lt9].
    injection Hb' as <-. done. }
  exists i. split_and!; [done..|].
  destruct (play_round_board _ _ _ _ _ _ _ _ Hround) as [-> Hchoose].
  rewrite Hchoose in Hb'.
  destruct (play_round_move do_rollout choose tree b w i false Hlen Hi Hb')
    as (out & Hround').
  rewrite <-Hchoose, Hround in Hround'. by injection Hround' as ->.
Qed.

(** C8: let two consecutive rounds of a game, from [b0] to [b1] and from
    [b1] to [b2], both choose a successor whose [rand] is false, and let [n]
    be the index of the first round's record. Then the board that [State[n]]
    and [Turn[n]] decode to has the cells and the mover of [b0], and
    [make_move] on it at [Action[n]] returns the board [b1], whose cells code
    to [State[n + 1]]. *)
Theorem dataset_round_trip {MCTS : Type}
    (do_rollout : MCTS → TicTacToeBoard → MCTS)
    (choose : MCTS → TicTacToeBoard → TicTacToeBoard)
    (t0 t1 t2 : MCTS) (b0 b1 b2 : TicTacToeBoard) (w0 w1 w2 : world) :
  length (tup b0) = 9 → lockstep (data w0) →
  successor b0 b1 → rand b1 = false →
  successor b1 b2 → rand b2 = false →
  play_round do_rollout choose t0 b0 w0 = Ok (t1, b1, w1) →
  play_round do_rollout choose t1 b1 w1 = Ok (t2, b2, w2) →
  let n := length (State (data w0)) in
  ∃ state turn_ action state',
    State (data w2) !! n = Some state ∧
    Turn (data w2) !! n = Some turn_ ∧
    Action (data w2) !! n = Some action ∧
    State (data w2) !! (n + 1) = Some state' ∧
    ∃ decoded b',
      decode_board state turn_ = Some decoded ∧
      tup decoded = tup b0 ∧ turn decoded = turn b0 ∧
      make_move decoded action false = Ok b' ∧
      b' = b1 ∧
      state_code <$> tup b' = state'.
Proof.
  intros Hlen [HST HTA] Hs1 Hr1 Hs2 Hr2 Hround1 Hround2 n.
  destruct (play_round_recorded _ _ _ _ _ _ _ _ Hlen Hs1 Hr1 Hround1)
    as (i & Hi & Hb1 & Hw1).
  assert (length (tup b1) = 9) as Hlen1.
  { eapply make_move_length; [done| |done]. by eapply lookup_Some_lt9. }
  destruct (play_round_recorded _ _ _ _ _ _ _ _ Hlen1 Hs2 Hr2 Hround2)
    as (j & Hj & Hb2 & Hw2).
  rewrite Hw2, Hw1. simpl.
  exists (state_code <$> tup b0), (turn_code (Some (turn b0))), i,
    (state_code <$> tup b1).
  split_and!.
  - rewrite <-app_assoc. by apply list_lookup_middle.
  - rewrite <-app_assoc. apply list_lookup_middle. by rewrite <-HST.
  - rewrite <-app_assoc. apply list_lookup_middle. by rewrite <-HTA, <-HST.
  - apply list_lookup_middle. rewrite length_app. simpl. done.
  - exists (board_of (tup b0) (turn b0)), b1. split_and!; try done.
    apply decode_board_codes.
Qed.

(** The first two rounds of a game with the engine [first_child]. *)
Lemma dataset_round_trip_witness :
  ∃ b', make_move (board_of (replicate 9 None) X) 0 false = Ok b' ∧
        state_code <$> tup b' = ("1" :: replicate 8 "0")%string.
Proof.
  pose (step := play_round (λ (t : unit) _, t) (λ _, first_child) tt).
  pose (b1 := first_child new_tic_tac_toe_board).
  pose (b2 := first_child b1).
  pose (w0 := World empty_data []).
  pose (w1 := match step new_tic_tac_toe_board w0 with
              | Ok (_, _, w) => w
              | Raise _ => w0
              end).
  pose (w2 := match step b1 w1 with Ok (_, _, w) => w | Raise _ => w1 end).
  destruct (dataset_round_trip (λ (t : unit) _, t) (λ _, first_child)
              tt tt tt new_tic_tac_toe_board b1 b2 w0 w1 w2)
    as (state & turn_ & action & state' & Hstate & Hturn & Haction & Hstate'
        & decoded & b' & Hdecoded & _ & _ & Hmove & _ & Hcode).
  - reflexivity.
  - split; reflexivity.
  - split; [reflexivity|]. exists 0, false. split; reflexivity.
  - reflexivity.
  - split; [reflexivity|]. exists 1, false. split; reflexivity.
  - reflexivity.
  - reflexivity.
  - reflexivity.
  - injection Hstate as <-. injection Hturn as <-. injection Haction as <-.
    injection Hstate' as <-. injection Hdecoded as <-.
    exists b'. split; [exact Hmove|exact Hcode].
Defined.

(** The two moves have to follow each other in the game. When a move with
    [rand] true, which is not recorded, lies between two recorded moves, the
    two records are neighbours in the dataset and the first does not lead to
    the second: X 0 recorded, O 1 random, X 2 recorded. *)
Example random_move_between_records :
  let b0 := new_tic_tac_toe_board in
  let b1 := move_to b0 false 0 in
  let b2 := move_to b1 true 1 in
  let b3 := move_to b2 false 2 in
  ∃ d state state',
    (d1 ← record_transition b0 b1 empty_data;
     d2 ← record_transition b1 b2 d1;
     record_transition b2 b3 d2) = Ok d ∧
    State d = [state; state'] ∧ Turn d = ["1"; "1"]%string ∧ Action d = [0; 2] ∧
    ∃ decoded b',
      decode_board state "1" = Some decoded ∧
      make_move decoded 0 false = Ok b' ∧
      state_code <$> tup b' ≠ state'.
Proof.
  simpl. eexists _, _, _. split_and!; [reflexivity..|].
  eexists _, _. split_and!; [reflexivity..|]. by vm_compute.
Qed.

(** ** More on the boards of a game *)

Lemma playable_after moves :
  legal moves new_tic_tac_toe_board = true →
  playable (after moves new_tic_tac_toe_board).
Proof.
  intros Hlegal. apply reachable_playable, reachable_after; [apply rtc_refl|done].
Qed.

(** X1: on a board of a game [reward] never raises on a terminal board: it
    returns -1 when a winner is set and 0 on a draw; before the end of the
    game it raises the error of a nonterminal board. The errors of an
    unreachable board and of an unknown winner never occur in a game. *)
Theorem reward_in_game (b : TicTacToeBoard) :
  playable b →
  (terminal b = true →
     reward b = Ok (match winner b with Some _ => -1 | None => 0 end)%Z) ∧
  (terminal b = false → reward b = Raise (RuntimeError nonterminal_board)) ∧
  reward b ≠ Raise (RuntimeError unreachable_board) ∧
  reward b ≠ Raise (RuntimeError unknown_winner_type).
Proof.
  intros Hb. split_and!.
  - by apply reward_playable.
  - intros Hterm. unfold reward. by rewrite Hterm.
  - destruct (terminal b) eqn:Hterm.
    + rewrite reward_playable by done. done.
    + unfold reward. by rewrite Hterm.
  - apply reward_known_winner.
Qed.

Lemma reward_in_game_witness :
  reward (after [0; 3; 1; 4; 2] new_tic_tac_toe_board) = Ok (-1)%Z ∧
  reward (after [0; 3] new_tic_tac_toe_board)
    = Raise (RuntimeError nonterminal_board).
Proof.
  split.
  - apply (reward_in_game (after [0; 3; 1; 4; 2] new_tic_tac_toe_board));
      [by apply playable_after|reflexivity].
  - apply (reward_in_game (after [0; 3] new_tic_tac_toe_board));
      [by apply playable_after|reflexivity].
Defined.

(** X2: the fields of every board of a game agree with its cells: there are
    9 cells, [winner] is what [_find_winner] returns on them, [terminal] is
    true exactly when a winner is set or no cell is Empty, and the winner is
    never the player to move. *)
Theorem game_board_fields (b : TicTacToeBoard) :
  playable b →
  length (tup b) = 9 ∧
  _find_winner (tup b) = Ok (winner b) ∧
  (terminal b = true ↔ winner b ≠ None ∨ None ∉ tup b) ∧
  winner b ≠ Some (turn b).
Proof.
  intros [Hlen Hwin Hterm _ Hloser]%playable_consistent. split_and!; try done.
  by rewrite Hterm, orb_true_iff, bool_decide_eq_true, negb_true_iff,
    <-not_true_iff_false, any_is_None_true.
Qed.

Lemma game_board_fields_witness :
  _find_winner (tup (after [0; 3; 1; 4; 2] new_tic_tac_toe_board))
  = Ok (winner (after [0; 3; 1; 4; 2] new_tic_tac_toe_board)).
Proof.
  apply (game_board_fields (after [0; 3; 1; 4; 2] new_tic_tac_toe_board)).
  by apply playable_after.
Defined.

Lemma count_mark_cons p v t :
  count_mark p (v :: t)
  = (if bool_decide (v = Some p) then 1 else 0) + count_mark p t.
Proof.
  unfold count_mark. rewrite filter_cons.
  destruct (decide (v = Some p)) as [->|Hv]; simpl.
  - by rewrite bool_decide_eq_true_2.
  - by rewrite bool_decide_eq_false_2.
Qed.

Lemma count_marks_length t :
  count_mark X t + count_mark O t + count_empty t = length t.
Proof.
  induction t as [|v t IH]; [done|].
  rewrite !count_mark_cons, count_empty_cons. simpl. rewrite <-IH.
  destruct v as [[]|]; simpl; lia.
Qed.

Lemma count_mark_insert p q t i :
  t !! i = Some None →
  count_mark p (<[i:=Some q]> t)
  = (if bool_decide (p = q) then 1 else 0) + count_mark p t.
Proof.
  revert i. induction t as [|v t IH]; intros [|i] Hi; simplify_eq/=.
  - rewrite !count_mark_cons. simpl. destruct p, q; done.
  - rewrite !count_mark_cons, (IH i Hi). lia.
Qed.

Lemma playable_marks b :
  playable b →
  count_mark X (tup b) = count_mark O (tup b) + (if turn b then 0 else 1).
Proof.
  revert b. apply rtc_ind_r; [done|].
  intros b b' Hb (_ & i & r & Hi & Hb') IH.
  rewrite make_move_move_to in Hb'.
  - injection Hb' as <-. simpl. rewrite !count_mark_insert by done.
    rewrite IH. unfold X, O. destruct (turn b); simpl; lia.
  - by apply consistent_length, playable_consistent.
  - eapply lookup_Some_lt9; [|done]. by apply consistent_length, playable_consistent.
Qed.

(** X3: on every board of a game the players have moved in turn, X first:
    the marks of X are as many as the marks of O when X is to move and one
    more when O is to move; with the Empty cells they are 9. *)
Theorem marks_alternate (b : TicTacToeBoard) :
  playable b →
  count_mark X (tup b) + count_mark O (tup b) + count_empty (tup b) = 9 ∧
  count_mark X (tup b) = count_mark O (tup b) + (if turn b then 0 else 1).
Proof.
  intros Hb. split; [|by apply playable_marks].
  rewrite count_marks_length. by apply consistent_length, playable_consistent.
Qed.

Lemma marks_alternate_witness :
  count_mark X (tup (after [0; 3; 1; 4; 2] new_tic_tac_toe_board))
  + count_mark O (tup (after [0; 3; 1; 4; 2] new_tic_tac_toe_board))
  + count_empty (tup (after [0; 3; 1; 4; 2] new_tic_tac_toe_board)) = 9 ∧
  count_mark X (tup (after [0; 3; 1; 4; 2] new_tic_tac_toe_board))
  = count_mark O (tup (after [0; 3; 1; 4; 2] new_tic_tac_toe_board)) + 1.
Proof.
  apply (marks_alternate (after [0; 3; 1; 4; 2] new_tic_tac_toe_board)).
  by apply playable_after.
Defined.

Lemma root_no_line p : ¬ has_line (tup new_tic_tac_toe_board) p.
Proof. by apply find_winner_None. Qed.

Lemma playable_line_owner b p :
  playable b → has_line (tup b) p → p = negb (turn b).
Proof.
  intros [<-|(b0 & Hb0 & Hstep)]%rtc_inv_r.
  { intros []%root_no_line. }
  pose proof (playable_consistent b0 Hb0) as Hcons.
  destruct Hstep as (Hterm & i & r & Hi & Hb).
  destruct (terminal_false_winner b0 Hcons Hterm) as [Hnone _].
  pose proof (consistent_length b0 Hcons) as Hlen.
  pose proof (consistent_winner b0 Hcons) as Hwin. rewrite Hnone in Hwin.
  rewrite make_move_move_to in Hb; [|done|by eapply lookup_Some_lt9].
  injection Hb as <-. simpl. rewrite negb_involutive.
  intros (line & Hin & Hline).
  destruct (decide (p = turn b0)) as [|Hp]; [done|].
  destruct (find_winner_None _ Hlen Hwin p). exists line. split; [done|].
  apply (holds_line_before _ i). by destruct p, (turn b0).
Qed.

(** X4: on a board of a game only the player who has just moved can hold a
    winning line, so the two players never both hold one, and [winner] is
    set to a player exactly when that player holds a line. *)
Theorem one_player_holds_lines (b : TicTacToeBoard) :
  playable b →
  (∀ p, has_line (tup b) p → p = negb (turn b)) ∧
  ¬ (has_line (tup b) X ∧ has_line (tup b) O) ∧
  (∀ p, winner b = Some p ↔ has_line (tup b) p) ∧
  (winner b = None ↔ ∀ p, ¬ has_line (tup b) p).
Proof.
  intros Hb. pose proof (playable_consistent b Hb) as [Hlen Hwin _ _ _].
  assert (¬ (has_line (tup b) X ∧ has_line (tup b) O)) as Hex.
  { intros [HX%playable_line_owner HO%playable_line_owner]; [|done..].
    unfold X, O in *. congruence. }
  destruct (find_winner_total (tup b) Hlen) as (w & Hw & Hspec).
  assert (w = winner b) as -> by congruence.
  split_and!.
  - intros p. by apply playable_line_owner.
  - done.
  - intros p. split.
    + intros Hp. by rewrite Hp in Hspec.
    + intros Hp. destruct (winner b) as [q|]; [|by destruct (Hspec p)].
      f_equal. by apply (has_line_excl (tup b)).
  - destruct (winner b) as [q|]; split; try done.
    intros Hno. by destruct (Hno q).
Qed.

Lemma one_player_holds_lines_witness :
  has_line (tup (after [0; 3; 1; 4; 2] new_tic_tac_toe_board)) X ∧
  ¬ has_line (tup (after [0; 3; 1; 4; 2] new_tic_tac_toe_board)) O.
Proof.
  destruct (one_player_holds_lines (after [0; 3; 1; 4; 2] new_tic_tac_toe_board))
    as (Howner & _ & Hwin & _); [by apply playable_after|].
  split.
  - by apply Hwin.
  - by intros ?%Howner.
Defined.

Lemma successor_fewer_empty b b' :
  successor b b' → count_empty (tup b') < count_empty (tup b).
Proof.
  intros (_ & i & r & Hi & Hb').
  pose proof (make_move_count_empty b i r b' Hi Hb'). lia.
Qed.

(** X5: moves only fill cells, so the boards form a graph without cycles:
    a board reached by one or more moves has fewer Empty cells than the
    board the moves started from, and is a different board. This holds from
    any board, also one that no game reaches. *)
Theorem moves_never_return (b b' : TicTacToeBoard) :
  tc successor b b' →
  count_empty (tup b') < count_empty (tup b) ∧ b' ≠ b.
Proof.
  intros Hsteps.
  assert (count_empty (tup b') < count_empty (tup b)) as Hlt.
  { induction Hsteps as [b b' Hstep|b b1 b' Hstep _ IH].
    - by apply successor_fewer_empty.
    - apply successor_fewer_empty in Hstep. lia. }
  split; [done|]. intros ->. lia.
Qed.

Lemma moves_never_return_witness :
  move_to (move_to new_tic_tac_toe_board false 4) false 0 ≠ new_tic_tac_toe_board.
Proof.
  apply (moves_never_return new_tic_tac_toe_board).
  eapply tc_l; [|apply tc_once].
  - split; [reflexivity|]. exists 4, false. split; reflexivity.
  - split; [reflexivity|]. exists 0, false. split; reflexivity.
Defined.

(** ** [find_random_child] *)

(** X6: [find_random_child] returns [None] on a terminal board. On a board
    that is not terminal and has no Empty cell, the choice from the empty
    list raises [IndexError]. On a 9-cell board that is not terminal, the
    choice of position [k] among the Empty cells returns the move to that
    cell with [rand] true: a successor of the board that is not in the set
    of [find_children], which holds the same board with [rand] false. *)
Theorem find_random_child_spec (k : nat) (b : TicTacToeBoard) :
  (terminal b = true → find_random_child k b = Ok None) ∧
  (terminal b = false → count_empty (tup b) = 0 →
     find_random_child k b = Raise IndexError) ∧
  (length (tup b) = 9 → terminal b = false → k < count_empty (tup b) →
     ∃ i b', empty_spots b !! k = Some i ∧ tup b !! i = Some None ∧
       find_random_child k b = Ok (Some b') ∧
       make_move b i true = Ok b' ∧ rand b' = true ∧ successor b b' ∧
       ∀ kids : gset TicTacToeBoard, find_children b = Ok kids →
         (b' ∉ kids) ∧
         (TTTB (tup b') (turn b') (winner b') (terminal b') false ∈ kids)).
Proof.
  unfold find_random_child. split_and!.
  - by intros ->.
  - intros -> Hfull. rewrite <-length_empty_spots in Hfull.
    by destruct (empty_spots b).
  - intros Hlen Hterm Hk. rewrite Hterm. rewrite <-length_empty_spots in Hk.
    destruct (getitem_lt _ _ Hk) as (i & Hget & Hi). rewrite Hget.
    assert (tup b !! i = Some None) as Hcell.
    { apply elem_of_empty_spots, list_elem_of_lookup. eauto. }
    assert (i < 9) as Hlt by by eapply lookup_Some_lt9.
    exists i, (move_to b true i). cbn [mbind result_bind].
    rewrite (make_move_move_to b i true Hlen Hlt). split_and!; try done.
    { split; [done|]. exists i, true. split; [done|].
      by apply make_move_move_to. }
    intros kids Hkids. rewrite find_children_Ok in Hkids by done.
    injection Hkids as <-. split.
    + rewrite elem_of_children by done. intros (j & Hj & Hmove).
      rewrite make_move_move_to in Hmove; [|done|by eapply lookup_Some_lt9].
      by injection Hmove.
    + apply elem_of_children; [done|]. exists i. split; [done|].
      by rewrite (make_move_move_to b i false Hlen Hlt).
Qed.

Lemma find_random_child_spec_witness :
  find_random_child 0 (TTTB (replicate 9 (Some X)) O (Some X) true false)
    = Ok None ∧
  find_random_child 0 (TTTB (replicate 9 (Some X)) O None false false)
    = Raise IndexError ∧
  ∃ i b', empty_spots new_tic_tac_toe_board !! 3 = Some i ∧
          find_random_child 3 new_tic_tac_toe_board = Ok (Some b') ∧
          rand b' = true.
Proof.
  split_and!.
  - by apply (find_random_child_spec 0
                (TTTB (replicate 9 (Some X)) O (Some X) true false)).
  - by apply (find_random_child_spec 0
                (TTTB (replicate 9 (Some X)) O None false false)).
  - destruct (find_random_child_spec 3 new_tic_tac_toe_board) as (_ & _ & Hpick).
    destruct Hpick as (i & b' & Hi & _ & Hchild & _ & Hrand & _);
      [reflexivity|reflexivity|vm_compute; lia|].
    exists i, b'. split_and!; [exact Hi|exact Hchild|exact Hrand].
Defined.

(** ** [_find_winner] outside the 9-cell boards *)

Lemma getitem_app_l {A} (t extra : list A) i :
  i < length t → getitem (t ++ extra) i = getitem t i.
Proof. intros Hi. unfold getitem. by rewrite lookup_app_l. Qed.

Lemma find_winner_loop_app combos t extra :
  Forall (in_range (length t)) combos →
  find_winner_loop combos (t ++ extra) = find_winner_loop combos t.
Proof.
  induction 1 as [|[[i1 i2] i3] combos (H1 & H2 & H3) _ IH]; [done|].
  simpl in *. rewrite !getitem_app_l by done. by rewrite IH.
Qed.

Lemma find_winner_loop_None combos t :
  find_winner_loop combos t = Ok None → Forall (in_range (length t)) combos.
Proof.
  induction combos as [|[[i1 i2] i3] combos IH]; [constructor|]. simpl.
  intros (v1 & Hv1%getitem_Ok & (v2 & Hv2%getitem_Ok
    & (v3 & Hv3%getitem_Ok & Hrest)%bind_Ok)%bind_Ok)%bind_Ok.
  destruct (is_chain (Some false) v1 v2 v3); [done|].
  destruct (is_chain (Some true) v1 v2 v3); [done|].
  constructor; [|by apply IH].
  split_and!; simpl; by eapply lookup_lt_Some.
Qed.

Lemma find_winner_loop_Some combos t p :
  find_winner_loop combos t = Ok (Some p) →
  ∃ line, line ∈ combos ∧ holds_line t p line.
Proof.
  induction combos as [|[[i1 i2] i3] combos IH]; [done|]. simpl.
  intros (v1 & Hv1%getitem_Ok & (v2 & Hv2%getitem_Ok
    & (v3 & Hv3%getitem_Ok & Hrest)%bind_Ok)%bind_Ok)%bind_Ok.
  destruct (is_chain (Some false) v1 v2 v3) eqn:HO.
  { injection Hrest as <-. apply is_chain_true in HO as (-> & -> & ->).
    exists (i1, i2, i3). split; [left|done]. }
  destruct (is_chain (Some true) v1 v2 v3) eqn:HX.
  { injection Hrest as <-. apply is_chain_true in HX as (-> & -> & ->).
    exists (i1, i2, i3). split; [left|done]. }
  destruct (IH Hrest) as (line & ? & ?). exists line. split; [by right|done].
Qed.

(** X7: what [_find_winner] does on a tuple that is not a 9-cell board. A
    winner it returns holds one of the 8 lines, whatever the length. On
    fewer than 9 cells it never returns [None]: it returns a winner found
    among the first lines or raises [IndexError], and on fewer than 3 cells
    it always raises. Cells after the ninth are not read. *)
Theorem find_winner_bounds (t : list cell) :
  (∀ p, _find_winner t = Ok (Some p) → has_line t p) ∧
  (length t < 9 → _find_winner t ≠ Ok None) ∧
  (length t < 3 → _find_winner t = Raise IndexError) ∧
  (9 ≤ length t → _find_winner t = _find_winner (take 9 t)).
Proof.
  unfold _find_winner. rewrite winning_combos_lines. split_and!.
  - intros p. apply find_winner_loop_Some.
  - intros Hlen Hnone%find_winner_loop_None.
    assert (in_range (length t) (6, 7, 8)) as (_ & _ & Hlt).
    { eapply Forall_forall; [exact Hnone|]. by do 2 right; left. }
    simpl in Hlt. lia.
  - intros Hlen. destruct t as [|a [|b [|c t]]];
      [reflexivity..|simpl in Hlen; lia].
  - intros Hlen. rewrite <-(take_drop 9 t) at 1. apply find_winner_loop_app.
    rewrite length_take, Nat.min_l by done. apply winning_lines_in_range.
Qed.

Lemma find_winner_bounds_witness :
  _find_winner [Some X; Some X; None] ≠ Ok None ∧
  _find_winner [Some X; Some X] = Raise IndexError ∧
  _find_winner (replicate 9 None ++ [Some X; Some X; Some X])
    = _find_winner (replicate 9 None).
Proof.
  split_and!.
  - destruct (find_winner_bounds [Some X; Some X; None]) as (_ & Hshort & _).
    apply Hshort. simpl. lia.
  - destruct (find_winner_bounds [Some X; Some X]) as (_ & _ & Hraise & _).
    apply Hraise. simpl. lia.
  - destruct (find_winner_bounds
                (replicate 9 None ++ [Some X; Some X; Some X]))
      as (_ & _ & _ & Hlong).
    apply Hlong. simpl. lia.
Defined.

Lemma first_line_cons_skip line combos t p :
  (∀ q, ¬ holds_line t q line) →
  first_line (line :: combos) t p ↔ first_line combos t p.
Proof.
  intros Hline. split.
  - intros ([|k] & l & Hk & Hl & Hfirst); simplify_eq/=; [by destruct (Hline p)|].
    exists k, l. split_and!; [done..|].
    intros k' l' q Hlt Hk'. apply (Hfirst (S k') l' q); [lia|done].
  - intros (k & l & Hk & Hl & Hfirst). exists (S k), l. split_and!; [done..|].
    intros [|k'] l' q Hlt Hk'; simplify_eq/=; [apply Hline|].
    apply (Hfirst k' l' q); [lia|done].
Qed.

Lemma first_line_cons_here line combos t p q :
  holds_line t q line → first_line (line :: combos) t p ↔ p = q.
Proof.
  intros Hq. split.
  - intros ([|k] & l & Hk & Hl & Hfirst); simplify_eq/=.
    + destruct Hl as [Hl _], Hq as [Hq _]. congruence.
    + destruct (Hfirst 0 line q); [lia|done..].
  - intros ->. exists 0, line. split_and!; [done..|]. intros; lia.
Qed.

Lemma find_winner_loop_first combos t p :
  Forall (in_range (length t)) combos →
  find_winner_loop combos t = Ok (Some p) ↔ first_line combos t p.
Proof.
  induction 1 as [|[[i1 i2] i3] combos (H1 & H2 & H3) _ IH]; simpl in *.
  { split; [done|]. by intros (k & l & Hk & _). }
  destruct (getitem_lt t i1 H1) as (v1 & -> & Hv1).
  destruct (getitem_lt t i2 H2) as (v2 & -> & Hv2).
  destruct (getitem_lt t i3 H3) as (v3 & -> & Hv3). cbn [mbind result_bind].
  destruct (is_chain (Some false) v1 v2 v3) eqn:HO.
  { apply is_chain_true in HO as (-> & -> & ->).
    rewrite (first_line_cons_here _ _ _ _ false) by done. naive_solver. }
  destruct (is_chain (Some true) v1 v2 v3) eqn:HX.
  { apply is_chain_true in HX as (-> & -> & ->).
    rewrite (first_line_cons_here _ _ _ _ true) by done. naive_solver. }
  rewrite IH, first_line_cons_skip; [done|].
  intros q (E1 & E2 & E3); simpl in *.
  rewrite Hv1 in E1. rewrite Hv2 in E2. rewrite Hv3 in E3. simplify_eq.
  destruct q.
  - by apply is_chain_false in HX; apply HX.
  - by apply is_chain_false in HO; apply HO.
Qed.

(** X8: on every 9-cell board, also one where both players hold a line,
    [_find_winner] returns the player who holds the first completed line in
    the order of the scan: rows from the top, columns from the left, the
    diagonal from cell 0, the diagonal from cell 2. *)
Theorem find_winner_first_line (t : list cell) (p : bool) :
  length t = 9 →
  _find_winner t = Ok (Some p) ↔ first_line winning_lines t p.
Proof.
  intros Hlen. unfold _find_winner. rewrite winning_combos_lines.
  apply find_winner_loop_first. rewrite Hlen. apply winning_lines_in_range.
Qed.

(** O holds the top row and X the middle row: O is returned; with the rows
    exchanged, X is. *)
Lemma find_winner_first_line_witness :
  first_line winning_lines
    [Some O; Some O; Some O; Some X; Some X; Some X; None; None; None] O ∧
  first_line winning_lines
    [Some X; Some X; Some X; Some O; Some O; Some O; None; None; None] X.
Proof.
  split.
  - by apply (find_winner_first_line
      [Some O; Some O; Some O; Some X; Some X; Some X; None; None; None] O).
  - by apply (find_winner_first_line
      [Some X; Some X; Some X; Some O; Some O; Some O; None; None; None] X).
Defined.

(** ** [make_move] past the end of the board *)

Lemma any_is_None_app t extra :
  any_is_None (t ++ extra) = any_is_None t || any_is_None extra.
Proof. unfold any_is_None. apply existsb_app. Qed.

(** X9: with an index past the last cell [make_move] raises nothing and
    marks no cell of the board: the two slices append the mover's mark as a
    tenth cell, the turn flips, and [winner] and [terminal] are those of the
    9 cells as they were. *)
Theorem make_move_past_end (b : TicTacToeBoard) (i : nat) (r : bool) :
  length (tup b) = 9 → 9 ≤ i →
  ∃ w, _find_winner (tup b) = Ok w ∧
       make_move b i r
       = Ok (TTTB (tup b ++ [Some (turn b)]) (negb (turn b)) w
                  (bool_decide (w ≠ None) || negb (any_is_None (tup b))) r).
Proof.
  intros Hlen Hi. destruct (find_winner_total (tup b) Hlen) as (w & Hw & _).
  exists w. split; [done|]. unfold make_move.
  rewrite slices_append by lia.
  assert (_find_winner (tup b ++ [Some (turn b)]) = Ok w) as ->.
  { unfold _find_winner in *. rewrite winning_combos_lines in *.
    rewrite find_winner_loop_app; [done|].
    rewrite Hlen. apply winning_lines_in_range. }
  cbn [mbind result_bind]. by rewrite any_is_None_app, orb_false_r.
Qed.

Lemma make_move_past_end_witness :
  make_move new_tic_tac_toe_board 9 false
  = Ok (TTTB (replicate 9 None ++ [Some X]) O None false false).
Proof.
  destruct (make_move_past_end new_tic_tac_toe_board 9 false) as (w & Hw & ->);
    [reflexivity|lia|].
  by injection Hw as <-.
Defined.

(** ** [to_pretty_string] *)

Lemma to_char_mark v : to_char v = String (mark_char v) EmptyString.
Proof. by destruct v as [[]|]. Qed.

Lemma mark_char_inj v v' : mark_char v = mark_char v' → v = v'.
Proof. by destruct v as [[]|], v' as [[]|]. Qed.

Lemma to_pretty_string_grid b :
  9 ≤ length (tup b) →
  to_pretty_string b = Ok (grid (to_char <$> take 9 (tup b))).
Proof.
  destruct b as [t u w e r]; simpl. intros Hlen.
  do 9 (destruct t as [|? t]; [simpl in Hlen; lia|]).
  unfold to_pretty_string, grid. cbn -[to_char pretty String.append String.concat].
  rewrite !to_char_mark. reflexivity.
Qed.

Lemma to_pretty_string_short b :
  length (tup b) < 9 → to_pretty_string b = Raise IndexError.
Proof.
  destruct b as [t u w e r]; simpl. intros Hlen.
  do 9 (destruct t as [|? t]; [reflexivity|]). simpl in Hlen. lia.
Qed.

(** X10: [to_pretty_string] raises [IndexError] on a board of fewer than 9
    cells. On a board of 9 cells or more it returns the grid of the first 9
    cells, a string of 33 characters: the legend line and three rows of a
    row number and three marks, each line ended by a newline; cells after
    the ninth are not shown. *)
Theorem to_pretty_string_layout (b : TicTacToeBoard) :
  (length (tup b) < 9 → to_pretty_string b = Raise IndexError) ∧
  (9 ≤ length (tup b) →
     ∃ s, to_pretty_string b = Ok s ∧
          s = grid (to_char <$> take 9 (tup b)) ∧
          String.length s = 33).
Proof.
  split; [apply to_pretty_string_short|].
  intros Hlen. eexists. split; [by apply to_pretty_string_grid|].
  split; [done|]. destruct b as [t u w e r]; simpl in *.
  do 9 (destruct t as [|? t]; [simpl in Hlen; lia|]).
  cbn [take fmap list_fmap]. rewrite !to_char_mark. reflexivity.
Qed.

Lemma to_pretty_string_layout_witness :
  to_pretty_string (TTTB [Some X; None] O None false false) = Raise IndexError ∧
  ∃ s, to_pretty_string new_tic_tac_toe_board = Ok s ∧ String.length s = 33.
Proof.
  split.
  - apply (to_pretty_string_layout (TTTB [Some X; None] O None false false)).
    simpl. lia.
  - destruct (to_pretty_string_layout new_tic_tac_toe_board) as [_ Hgrid].
    destruct Hgrid as (s & Hs & _ & Hlen); [simpl; lia|].
    exists s. split; [exact Hs|exact Hlen].
Defined.

(** X11: the rendering shows every cell: two 9-cell boards with the same
    [to_pretty_string] have the same cells. *)
Theorem to_pretty_string_inj (b1 b2 : TicTacToeBoard) (s : string) :
  length (tup b1) = 9 → length (tup b2) = 9 →
  to_pretty_string b1 = Ok s → to_pretty_string b2 = Ok s →
  tup b1 = tup b2.
Proof.
  intros Hlen1 Hlen2.
  rewrite !to_pretty_string_grid by lia. intros [= <-] [= Heq]. revert Heq.
  destruct b1 as [t1 ? ? ? ?], b2 as [t2 ? ? ? ?]; simpl in *.
  do 9 (destruct t1 as [|? t1]; [done|]). destruct t1; [|done].
  do 9 (destruct t2 as [|? t2]; [done|]). destruct t2; [|done].
  cbn [take fmap list_fmap]. rewrite !to_char_mark.
  cbv -[mark_char]. intros [=]. repeat f_equal; by apply mark_char_inj.
Qed.

Lemma to_pretty_string_inj_witness :
  tup (TTTB (replicate 9 None) O (Some X) true true) = tup new_tic_tac_toe_board.
Proof.
  by apply (to_pretty_string_inj
              (TTTB (replicate 9 None) O (Some X) true true)
              new_tic_tac_toe_board
              (grid (replicate 9 " "%string))).
Defined.

(** ** [record_transition] on any two boards *)

Lemma getitem_Raise {A} (t : list A) i e : getitem t i = Raise e → e = IndexError.
Proof. unfold getitem. destruct (t !! i); congruence. Qed.

Lemma append_actions_raise indices old new actions :
  Exists (λ i, length old ≤ i ∨ length new ≤ i) indices →
  append_actions indices old new actions = Raise IndexError.
Proof.
  intros Hex. revert actions.
  induction indices as [|i indices IH]; intros actions.
  { by apply Exists_nil in Hex. }
  cbn [append_actions].
  destruct (getitem old i) as [a|e] eqn:Ha; [|by apply getitem_Raise in Ha as ->].
  cbn [mbind result_bind].
  destruct (getitem new i) as [b|e] eqn:Hb; [|by apply getitem_Raise in Hb as ->].
  cbn [mbind result_bind].
  apply IH. apply Exists_cons in Hex as [[Hi|Hi]|Hex]; [| |done].
  - apply getitem_Ok, lookup_lt_Some in Ha. lia.
  - apply getitem_Ok, lookup_lt_Some in Hb. lia.
Qed.

Lemma range9_elem i : i < 9 → i ∈ range 0 9 1.
Proof.
  intros Hi. apply list_elem_of_lookup. exists i.
  do 9 (destruct i as [|i]; [reflexivity|]). lia.
Qed.

Lemma range9_lt : Forall (λ i, i < 9) (range 0 9 1).
Proof. repeat constructor. Qed.

(** X12: what the recording block of [play_game] does for any two boards.
    With [rand] true on the new board nothing is recorded. With [rand] false
    and 9 cells or more in both boards, one State entry (the codes of all
    cells of the old board), one Turn entry, and one Action entry for each
    of the indices 0-8 at which the boards differ are appended; so the three
    sequences stay of equal lengths exactly when the boards differ at one
    index. With [rand] false and one board shorter than 9 cells,
    [IndexError] is raised. *)
Theorem record_transition_general (b b' : TicTacToeBoard) (d : dataset) :
  (rand b' = true → record_transition b b' d = Ok d) ∧
  (rand b' = false → 9 ≤ length (tup b) → 9 ≤ length (tup b') →
     ∃ d', record_transition b b' d = Ok d' ∧
       State d' = State d ++ [state_code <$> tup b] ∧
       Turn d' = Turn d ++ [turn_code (Some (turn b))] ∧
       Action d' = Action d ++ differing (tup b) (tup b') ∧
       (lockstep d →
          (lockstep d' ↔ length (differing (tup b) (tup b')) = 1))) ∧
  (rand b' = false → length (tup b) < 9 ∨ length (tup b') < 9 →
     record_transition b b' d = Raise IndexError).
Proof.
  unfold record_transition. split_and!.
  - by intros ->.
  - intros -> Hb Hb'. cbn [negb]. eexists. split.
    + rewrite append_actions_Ok; [done|].
      eapply Forall_impl; [apply range9_lt|]. intros i Hi. simpl in Hi. lia.
    + cbn [State Turn Action]. split_and!; [done..|].
      intros [H1 H2]. unfold lockstep, differing. cbn [State Turn Action].
      rewrite !length_app. cbn [length]. lia.
  - intros -> Hshort. cbn [negb]. rewrite append_actions_raise; [done|].
    apply Exists_exists. destruct Hshort as [Hlt|Hlt].
    + exists (length (tup b)). split; [by apply range9_elem|lia].
    + exists (length (tup b')). split; [by apply range9_elem|lia].
Qed.

(** A chosen board that is the current board again: a State and a Turn
    entry and no Action entry. A board two moves ahead: two Action entries. *)
Lemma record_transition_general_witness :
  (∃ d', record_transition new_tic_tac_toe_board new_tic_tac_toe_board
           empty_data = Ok d' ∧ Action d' = [] ∧ ¬ lockstep d') ∧
  (∃ d', record_transition new_tic_tac_toe_board
           (after [0; 3] new_tic_tac_toe_board) empty_data = Ok d' ∧
         Action d' = [0; 3]) ∧
  record_transition new_tic_tac_toe_board
    (TTTB [Some X] O None false false) empty_data = Raise IndexError.
Proof.
  split_and!.
  - destruct (record_transition_general new_tic_tac_toe_board
                new_tic_tac_toe_board empty_data) as (_ & Hrec & _).
    destruct Hrec as (d' & Hd' & _ & _ & Hact & Hlock);
      [reflexivity|simpl; lia..|].
    exists d'. split; [exact Hd'|]. split; [exact Hact|].
    intros Hl%Hlock; [discriminate Hl|split; reflexivity].
  - destruct (record_transition_general new_tic_tac_toe_board
                (after [0; 3] new_tic_tac_toe_board) empty_data)
      as (_ & Hrec & _).
    destruct Hrec as (d' & Hd' & _ & _ & Hact & _);
      [reflexivity|simpl; lia..|].
    exists d'. split; [exact Hd'|exact Hact].
  - destruct (record_transition_general new_tic_tac_toe_board
                (TTTB [Some X] O None false false) empty_data)
      as (_ & _ & Hraise).
    apply Hraise; [reflexivity|right; simpl; lia].
Defined.

(** ** A game, round by round *)

Lemma differing_move b r i :
  length (tup b) = 9 → tup b !! i = Some None →
  differing (tup b) (tup (move_to b r i)) = [i].
Proof.
  intros Hlen Hi. unfold differing.
  rewrite <-(filter_eq_range9 i) by by eapply lookup_Some_lt9.
  apply list_filter_iff. intros j. rewrite <-(move_to_differs b r i j Hi).
  split; intros Hne Heq; by apply Hne.
Qed.

Lemma logged_move b r i d :
  length (tup b) = 9 → tup b !! i = Some None →
  logged b (move_to b r i) d = if r then d else recorded b i d.
Proof.
  intros Hlen Hi. unfold logged, recorded.
  rewrite (differing_move b r i Hlen Hi). done.
Qed.

Lemma play_round_exact {MCTS : Type} (do_rollout : MCTS → TicTacToeBoard → MCTS)
    (choose : MCTS → TicTacToeBoard → TicTacToeBoard) tree b w :
  let tree' := Nat.iter 100 (λ t, do_rollout t b) tree in
  let b' := choose tree' b in
  length (tup b) = 9 → successor b b' →
  ∃ s, to_pretty_string b' = Ok s ∧
       play_round do_rollout choose tree b w
       = Ok (tree', b', World (logged b b' (data w))
                              (stdout w ++ [s] ++ announcement (winner b'))).
Proof.
  intros tree' b' Hlen (_ & i & r & Hi & Hb').
  assert (i < 9) as Hlt by by eapply lookup_Some_lt9.
  destruct (to_pretty_string_Ok b') as (s & Hs).
  { by eapply make_move_length. }
  exists s. split; [done|]. unfold play_round. cbv zeta. fold tree' b'.
  rewrite (record_transition_move b i r _ _ Hlen Hi Hb'), Hs.
  cbn [mbind result_bind].
  assert (logged b b' (data w) = if r then data w else recorded b i (data w))
    as ->.
  { rewrite make_move_move_to in Hb' by done. injection Hb' as <-.
    by apply logged_move. }
  destruct (winner b') as [[]|]; simpl; unfold print; simpl;
    by rewrite <-?app_assoc.
Qed.

Section Trace.
Context {MCTS : Type}.
Variable new_tree : MCTS.
Variable do_rollout : MCTS → TicTacToeBoard → MCTS.
Variable choose : MCTS → TicTacToeBoard → TicTacToeBoard.
Hypothesis choose_successor : chooses_successor choose.
(** What the engine's choices have in common. *)
Variable chosen : TicTacToeBoard → Prop.
Hypothesis choose_chosen :
  ∀ tree b, playable b → terminal b = false → chosen (choose tree b).

Lemma play_loop_trace_with fuel tree b w w' :
  playable b → terminal b = false →
  play_loop do_rollout choose fuel tree b w = Some (Ok w') →
  ∃ boards final pretties,
    chain b (boards ++ [final]) ∧
    Forall (λ x, terminal x = false) boards ∧ terminal final = true ∧
    length boards < fuel ∧
    Forall2 (λ x s, to_pretty_string x = Ok s) (boards ++ [final]) pretties ∧
    stdout w' = stdout w ++ pretties ++ announcement (winner final) ∧
    data w' = game_log b (boards ++ [final]) (data w) ∧
    Forall chosen (boards ++ [final]).
Proof.
  revert tree b w. induction fuel as [|fuel IH]; intros tree b w Hb Hterm;
    [done|].
  pose proof (choose_successor (Nat.iter 100 (λ t, do_rollout t b) tree) b
                Hb Hterm) as Hsucc.
  assert (length (tup b) = 9) as Hlen
    by by apply consistent_length, playable_consistent.
  destruct (play_round_exact do_rollout choose tree b w Hlen Hsucc)
    as (s & Hs & Hround).
  cbn [play_loop]. rewrite Hround.
  set (tree' := Nat.iter 100 (λ t, do_rollout t b) tree) in *.
  set (b' := choose tree' b) in *.
  assert (playable b') as Hb' by by eapply rtc_r.
  assert (chosen b') as Hchosen by by apply choose_chosen.
  destruct (terminal b') eqn:Hterm'.
  - intros [= <-]. exists [], b', [s]. simpl. split_and!; try done.
    + lia.
    + by repeat constructor.
    + by repeat constructor.
  - intros (boards & final & pretties & Hchain & Hnt & Hfin & Hfuel & Hpretty
            & Hout & Hdata & Hall)%IH; [|done..].
    exists (b' :: boards), final, (s :: pretties). simpl in *.
    split_and!; try done.
    + by constructor.
    + lia.
    + by constructor.
    + destruct (terminal_false_winner b') as [Hnone _];
        [by apply playable_consistent|done|].
      rewrite Hnone in Hout. simpl in Hout. by rewrite Hout, <-app_assoc.
    + by constructor.
Qed.
End Trace.

Lemma play_loop_trace {MCTS : Type} (do_rollout : MCTS → TicTacToeBoard → MCTS)
    (choose : MCTS → TicTacToeBoard → TicTacToeBoard)
    (choose_successor : chooses_successor choose) fuel tree b w w' :
  playable b → terminal b = false →
  play_loop do_rollout choose fuel tree b w = Some (Ok w') →
  ∃ boards final pretties,
    chain b (boards ++ [final]) ∧
    Forall (λ x, terminal x = false) boards ∧ terminal final = true ∧
    length boards < fuel ∧
    Forall2 (λ x s, to_pretty_string x = Ok s) (boards ++ [final]) pretties ∧
    stdout w' = stdout w ++ pretties ++ announcement (winner final) ∧
    data w' = game_log b (boards ++ [final]) (data w).
Proof.
  intros Hb Hterm Hloop.
  destruct (play_loop_trace_with do_rollout choose choose_successor
              (λ _, True) (λ _ _ _ _, I) fuel tree b w w' Hb Hterm Hloop)
    as (boards & final & pretties & ? & ? & ? & ? & ? & ? & ? & _).
  by exists boards, final, pretties.
Qed.

(** X13: a game with an engine that chooses a successor goes through a
    sequence of boards, each one move after the one before, of which the
    last and only the last is terminal. [play_game] prints the rendering of
    each of them in turn and, after the last, the winner's line and an empty
    line when a winner is set; nothing else. The dataset it leaves is the one
    it found, with the records of the rounds in their order. *)
Theorem play_game_trace {MCTS : Type} (new_tree : MCTS)
    (do_rollout : MCTS → TicTacToeBoard → MCTS)
    (choose : MCTS → TicTacToeBoard → TicTacToeBoard)
    (fuel : nat) (w w' : world) :
  chooses_successor choose →
  play_game new_tree do_rollout choose fuel w = Some (Ok w') →
  ∃ boards final pretties,
    chain new_tic_tac_toe_board (boards ++ [final]) ∧
    Forall (λ x, terminal x = false) boards ∧ terminal final = true ∧
    length boards < fuel ∧
    Forall2 (λ x s, to_pretty_string x = Ok s) (boards ++ [final]) pretties ∧
    stdout w' = stdout w ++ pretties ++ announcement (winner final) ∧
    data w' = game_log new_tic_tac_toe_board (boards ++ [final]) (data w).
Proof.
  intros Hchoose. apply play_loop_trace; [done|apply rtc_refl|done].
Qed.

Lemma play_game_trace_witness :
  ∃ w' boards final,
    play_game tt (λ t _, t) (λ _ : unit, first_child) 9 (World empty_data [])
      = Some (Ok w') ∧
    terminal final = true ∧
    data w' = game_log new_tic_tac_toe_board (boards ++ [final]) empty_data.
Proof.
  pose (w' := match play_game tt (λ t _, t) (λ _ : unit, first_child) 9
                      (World empty_data []) with
              | Some (Ok w') => w'
              | _ => World empty_data []
              end).
  assert (play_game tt (λ t _, t) (λ _ : unit, first_child) 9
            (World empty_data []) = Some (Ok w')) as Hgame
    by (vm_compute; reflexivity).
  destruct (play_game_trace tt (λ t _, t) (λ _ : unit, first_child) 9
              (World empty_data []) w' first_child_successor Hgame)
    as (boards & final & _ & _ & _ & Hfin & _ & _ & _ & Hdata).
  exists w', boards, final.
  split; [exact Hgame|]. split; [exact Hfin|exact Hdata].
Defined.

(** ** The rounds a game is given *)

(** The number of rounds given to the loop is only a bound: when the loop
    ends within it, more rounds give the same result. *)
Lemma play_loop_more_fuel {MCTS : Type}
    (do_rollout : MCTS → TicTacToeBoard → MCTS)
    (choose : MCTS → TicTacToeBoard → TicTacToeBoard) fuel fuel' tree b w r :
  fuel ≤ fuel' →
  play_loop do_rollout choose fuel tree b w = Some r →
  play_loop do_rollout choose fuel' tree b w = Some r.
Proof.
  revert fuel' tree b w. induction fuel as [|fuel IH];
    intros fuel' tree b w Hle; [done|].
  destruct fuel' as [|fuel']; [lia|]. cbn [play_loop].
  destruct (play_round do_rollout choose tree b w) as [[[tree1 b1] w1]|e];
    [|done].
  destruct (terminal b1); [done|]. apply IH. lia.
Qed.

Lemma play_game_fuel {MCTS : Type} (new_tree : MCTS)
    (do_rollout : MCTS → TicTacToeBoard → MCTS)
    (choose : MCTS → TicTacToeBoard → TicTacToeBoard) fuel fuel' w r r' :
  play_game new_tree do_rollout choose fuel w = Some r →
  play_game new_tree do_rollout choose fuel' w = Some r' →
  r' = r.
Proof.
  unfold play_game. intros Hr Hr'.
  apply (play_loop_more_fuel _ _ _ (fuel `max` fuel')) in Hr; [|lia].
  apply (play_loop_more_fuel _ _ _ (fuel `max` fuel')) in Hr'; [|lia].
  congruence.
Qed.

(** ** The dataset a game leaves *)

Lemma record_ok_move b i :
  playable b → terminal b = false → tup b !! i = Some None →
  record_ok (state_code <$> tup b) (turn_code (Some (turn b))) i.
Proof.
  intros Hb%playable_consistent Hterm Hi.
  destruct (terminal_false_winner b Hb Hterm) as [Hnone _].
  pose proof Hb as [Hlen Hwin _ Hturn _].
  exists (tup b), (turn b). split_and!; try done.
  apply find_winner_None; [done|]. by rewrite Hwin, Hnone.
Qed.

Lemma dataset_ok_logged b b' d :
  playable b → successor b b' → dataset_ok d → dataset_ok (logged b b' d).
Proof.
  intros Hb (Hterm & i & r & Hi & Hb') Hd.
  assert (length (tup b) = 9) as Hlen
    by by apply consistent_length, playable_consistent.
  rewrite make_move_move_to in Hb'; [|done|by eapply lookup_Some_lt9].
  injection Hb' as <-. rewrite logged_move by done.
  destruct r; [done|]. unfold dataset_ok, recorded. simpl.
  apply Forall3_app; [done|]. repeat constructor. by apply record_ok_move.
Qed.

Lemma logged_extends b b' d :
  State d `prefix_of` State (logged b b' d) ∧
  Turn d `prefix_of` Turn (logged b b' d) ∧
  Action d `prefix_of` Action (logged b b' d) ∧
  length (State (logged b b' d)) ≤ length (State d) + 1.
Proof.
  unfold logged. destruct (rand b'); simpl.
  - split_and!; [done..|lia].
  - split_and!; [by apply prefix_app_r..|]. rewrite length_app. simpl. lia.
Qed.

Lemma game_log_spec b boards d :
  playable b → chain b boards → dataset_ok d →
  dataset_ok (game_log b boards d) ∧
  State d `prefix_of` State (game_log b boards d) ∧
  Turn d `prefix_of` Turn (game_log b boards d) ∧
  Action d `prefix_of` Action (game_log b boards d) ∧
  length (State (game_log b boards d)) ≤ length (State d) + length boards ∧
  length boards ≤ count_empty (tup b).
Proof.
  revert b d. induction boards as [|b' boards IH]; intros b d Hb Hchain Hd.
  { simpl. split_and!; [done..|lia|lia]. }
  destruct Hchain as [Hsucc Hchain]. simpl.
  destruct (IH b' (logged b b' d)) as (Hok & HS & HT & HA & Hlen & Hcount);
    [by eapply rtc_r|done|by apply dataset_ok_logged|].
  destruct (logged_extends b b' d) as (HS' & HT' & HA' & Hlen').
  apply successor_fewer_empty in Hsucc.
  split_and!; [done|by etrans..|lia|lia].
Qed.

Lemma dataset_ok_lockstep d : dataset_ok d → lockstep d.
Proof.
  intros Hd. split.
  - by eapply Forall3_length_lm.
  - rewrite <-(Forall3_length_lm _ _ _ _ Hd). by eapply Forall3_length_lr.
Qed.

Lemma state_code_codes (cells : list cell) :
  Forall (λ c, c = "0" ∨ c = "1" ∨ c = "-1")%string (state_code <$> cells).
Proof.
  apply Forall_fmap, Forall_true. intros [[]|]; simpl; auto.
Qed.

Lemma record_ok_shape state t a :
  record_ok state t a →
  length state = 9 ∧
  Forall (λ c, c = "0" ∨ c = "1" ∨ c = "-1")%string state ∧
  (t = "1" ∨ t = "-1")%string ∧
  a < 9 ∧ state !! a = Some "0"%string.
Proof.
  intros (cells & u & -> & -> & Hlen & Ha & _ & _). split_and!.
  - by rewrite length_fmap.
  - apply state_code_codes.
  - destruct u; auto.
  - by eapply lookup_Some_lt9.
  - by rewrite list_lookup_fmap, Ha.
Qed.

Section Records.
Context {MCTS : Type}.
Variable new_tree : MCTS.
Variable do_rollout : MCTS → TicTacToeBoard → MCTS.
Variable choose : MCTS → TicTacToeBoard → TicTacToeBoard.
Hypothesis choose_successor : chooses_successor choose.

Lemma play_game_dataset_ok fuel w w' :
  dataset_ok (data w) →
  play_game new_tree do_rollout choose fuel w = Some (Ok w') →
  dataset_ok (data w') ∧
  State (data w) `prefix_of` State (data w') ∧
  Turn (data w) `prefix_of` Turn (data w') ∧
  Action (data w) `prefix_of` Action (data w') ∧
  length (State (data w')) ≤ length (State (data w)) + 9.
Proof.
  intros Hd Hgame.
  destruct (play_loop_trace do_rollout choose choose_successor fuel new_tree
              new_tic_tac_toe_board w w')
    as (boards & final & _ & Hchain & _ & _ & _ & _ & _ & ->);
    [apply rtc_refl|done..|].
  destruct (game_log_spec new_tic_tac_toe_board (boards ++ [final]) (data w))
    as (Hok & HS & HT & HA & Hlen & Hcount); [apply rtc_refl|done..|].
  change (count_empty (tup new_tic_tac_toe_board)) with 9 in Hcount.
  split_and!; [done..|lia].
Qed.

Lemma play_games_dataset_ok games w :
  dataset_ok (data w) →
  ∃ w', play_games new_tree do_rollout choose games 9 w = Some (Ok w') ∧
        dataset_ok (data w') ∧
        State (data w) `prefix_of` State (data w') ∧
        length (State (data w')) ≤ length (State (data w)) + 9 * games.
Proof.
  revert w. induction games as [|games IH]; intros w Hd.
  { exists w. simpl. split_and!; [done..|lia]. }
  destruct (play_game_returns new_tree do_rollout choose choose_successor w)
    as (w1 & Hgame & _).
  destruct (play_game_dataset_ok 9 w w1 Hd Hgame) as (Hd1 & HS & _ & _ & Hlen).
  destruct (IH w1 Hd1) as (w' & Hgames & Hd' & HS' & Hlen').
  exists w'. cbn [play_games]. rewrite Hgame.
  split_and!; [done..|by etrans|lia].
Qed.
End Records.

(** X14: the records of a game are well formed. With an engine that
    chooses a successor, [play_game] returns (9 rounds are enough, and with
    any other number of rounds it returns nothing else), and the dataset it
    leaves keeps every entry it had, in place, and has at most 9 more
    records; the three sequences have the same length; and in every record
    the State entry has 9 codes among "0", "1" and "-1", the Turn entry is
    "1" or "-1" (never "0"), and the Action entry is an index 0-8 whose cell
    is "0" in the State entry: the recorded move goes to a cell that is
    Empty there. *)
Theorem play_game_dataset {MCTS : Type} (new_tree : MCTS)
    (do_rollout : MCTS → TicTacToeBoard → MCTS)
    (choose : MCTS → TicTacToeBoard → TicTacToeBoard) (w : world) :
  chooses_successor choose →
  dataset_ok (data w) →
  ∃ w',
    play_game new_tree do_rollout choose 9 w = Some (Ok w') ∧
    (∀ fuel r, play_game new_tree do_rollout choose fuel w = Some r →
               r = Ok w') ∧
    State (data w) `prefix_of` State (data w') ∧
    Turn (data w) `prefix_of` Turn (data w') ∧
    Action (data w) `prefix_of` Action (data w') ∧
    length (State (data w')) ≤ length (State (data w)) + 9 ∧
    lockstep (data w') ∧
    dataset_ok (data w') ∧
    ∀ k state t a,
      State (data w') !! k = Some state → Turn (data w') !! k = Some t →
      Action (data w') !! k = Some a →
      length state = 9 ∧
      Forall (λ c, c = "0" ∨ c = "1" ∨ c = "-1")%string state ∧
      (t = "1" ∨ t = "-1")%string ∧
      a < 9 ∧ state !! a = Some "0"%string.
Proof.
  intros Hchoose Hd.
  destruct (play_game_returns new_tree do_rollout choose Hchoose w)
    as (w' & Hgame & _).
  destruct (play_game_dataset_ok new_tree do_rollout choose Hchoose 9 w w'
              Hd Hgame) as (Hd' & HS & HT & HA & Hlen).
  exists w'. split_and!; try done.
  - intros fuel r Hr. by eapply play_game_fuel.
  - by apply dataset_ok_lockstep.
  - intros k state t a Hs Ht Ha. apply record_ok_shape.
    by eapply (Forall3_lookup_lmr _ _ _ _ k).
Qed.

Lemma play_game_dataset_witness :
  ∃ w', play_game tt (λ t _, t) (λ _ : unit, first_child) 9 (World empty_data [])
          = Some (Ok w') ∧
        lockstep (data w') ∧ length (State (data w')) ≤ 0 + 9.
Proof.
  destruct (play_game_dataset tt (λ t _, t) (λ _ : unit, first_child)
              (World empty_data []) first_child_successor)
    as (w' & Hgame & _ & _ & _ & _ & Hlen & Hlock & _).
  - constructor.
  - exists w'. split; [exact Hgame|]. split; [exact Hlock|exact Hlen].
Defined.

(** X15: the batch of the main block. With an engine that chooses a
    successor, the 500 games all return (9 rounds are enough for each), and
    the dataset to be dumped has at most 9 * 500 records, all of them well
    formed, the three sequences of one length. *)
Theorem main_dataset {MCTS : Type} (new_tree : MCTS)
    (do_rollout : MCTS → TicTacToeBoard → MCTS)
    (choose : MCTS → TicTacToeBoard → TicTacToeBoard) :
  chooses_successor choose →
  ∃ w', main new_tree do_rollout choose 9 = Some (Ok w') ∧
        dataset_ok (data w') ∧ lockstep (data w') ∧
        length (State (data w')) ≤ 9 * 500.
Proof.
  intros Hchoose.
  destruct (play_games_dataset_ok new_tree do_rollout choose Hchoose 500
              (World empty_data [])) as (w' & Hmain & Hd & _ & Hlen);
    [constructor|].
  exists w'. split_and!; [done..|by apply dataset_ok_lockstep|exact Hlen].
Qed.

Lemma main_dataset_witness :
  ∃ w', main tt (λ t _, t) (λ _ : unit, first_child) 9 = Some (Ok w') ∧
        lockstep (data w').
Proof.
  destruct (main_dataset tt (λ t _, t) (λ _ : unit, first_child)
              first_child_successor) as (w' & Hmain & _ & Hlock & _).
  exists w'. split; [exact Hmain|exact Hlock].
Defined.

(** ** The length of a game *)

Lemma has_line_count t p : length t = 9 → has_line t p → 3 ≤ count_mark p t.
Proof.
  intros Hlen (line & Hin & H1 & H2 & H3).
  do 9 (destruct t as [|? t]; [done|]). destruct t; [|done]. clear Hlen.
  unfold winning_lines in Hin.
  repeat (apply elem_of_cons in Hin as [->|Hin];
    [simpl in H1, H2, H3; simplify_eq;
     rewrite !count_mark_cons; repeat case_bool_decide;
     first [done|unfold count_mark; simpl; lia]|]).
  by apply elem_of_nil in Hin.
Qed.

Lemma odd_9_sub n c : c + n = 9 → Nat.odd c = negb (Nat.odd n).
Proof.
  intros Hn. assert (c = 9 - n) as -> by lia. assert (n ≤ 9) as Hle by lia.
  clear Hn. do 10 (destruct n as [|n]; [reflexivity|]). lia.
Qed.

Lemma nsteps_after moves b :
  consistent b → legal moves b = true →
  nsteps successor (length moves) b (after moves b).
Proof.
  revert b. induction moves as [|i moves IH]; intros b Hb; simpl.
  { intros _. apply nsteps_O. }
  rewrite !andb_true_iff, negb_true_iff, bool_decide_eq_true.
  intros [[Hterm Hi] Hlegal].
  assert (successor b (move_to b false i)) as Hstep.
  { split; [done|]. exists i, false. split; [done|].
    apply make_move_move_to; [by apply consistent_length|].
    eapply lookup_Some_lt9; [|done]. by apply consistent_length. }
  eapply nsteps_l; [done|]. apply IH; [|done]. by eapply successor_consistent.
Qed.

Lemma terminal_after_moves (n : nat) (b : TicTacToeBoard) :
  nsteps successor n new_tic_tac_toe_board b → terminal b = true →
  5 ≤ n ≤ 9 ∧
  (winner b = Some X → Nat.odd n = true) ∧
  (winner b = Some O → Nat.even n = true ∧ 6 ≤ n) ∧
  (winner b = None → n = 9).
Proof.
  intros Hsteps Hterm.
  destruct (nsteps_count_empty n _ b consistent_root Hsteps) as [Hcons Hcount].
  change (count_empty (tup new_tic_tac_toe_board)) with 9 in Hcount.
  assert (playable b) as Hb by by eapply rtc_nsteps_2.
  pose proof (playable_marks b Hb) as Hmarks.
  pose proof (count_marks_length (tup b)) as Hsum.
  pose proof Hcons as [Hlen Hwin Hterm' Hturn Hloser].
  rewrite Hlen in Hsum. rewrite (odd_9_sub n _ Hcount) in Hturn.
  destruct (winner b) as [p|] eqn:Hp.
  - apply find_winner_Some, has_line_count in Hwin; [|done..].
    destruct p, (turn b) eqn:Hu; try done; simpl in *.
    + assert (Nat.odd n = true) as Hodd by by destruct (Nat.odd n).
      unfold X, O in *. split_and!; try done; lia.
    + assert (Nat.odd n = false) as Hodd by by destruct (Nat.odd n).
      unfold X, O in *. split_and!; try done; try lia.
      intros _. split; [by rewrite <-Nat.negb_odd, Hodd|lia].
  - rewrite Hterm in Hterm'. simpl in Hterm'. symmetry in Hterm'.
    rewrite any_is_None_count, negb_involutive, bool_decide_eq_true in Hterm'.
    split_and!; try done; lia.
Qed.

(** X16: no game ends before the fifth move or goes on after the ninth.
    On a terminal board reached from the root by [n] moves, [n] is between 5
    and 9; X has won only after an odd number of moves, O only after an even
    number, at least 6; a draw comes only with the ninth move. *)
Theorem game_length (n : nat) (b : TicTacToeBoard) :
  nsteps successor n new_tic_tac_toe_board b → terminal b = true →
  5 ≤ n ≤ 9 ∧
  (winner b = Some X → Nat.odd n = true) ∧
  (winner b = Some O → Nat.even n = true ∧ 6 ≤ n) ∧
  (winner b = None → n = 9).
Proof. apply terminal_after_moves. Qed.

Lemma game_length_witness :
  Nat.odd 5 = true ∧ 5 ≤ 5 ≤ 9.
Proof.
  pose proof (nsteps_after [0; 3; 1; 4; 2] new_tic_tac_toe_board
                consistent_root eq_refl) as Hsteps.
  destruct (game_length 5 (after [0; 3; 1; 4; 2] new_tic_tac_toe_board) Hsteps)
    as (Hn & HX & _); [reflexivity|].
  split; [by apply HX|exact Hn].
Defined.

(** ** Games in which every move is recorded *)

Lemma child_rand b b' : child b b' → rand b' = false.
Proof.
  intros (kids & Hkids & Hin). unfold find_children in Hkids.
  destruct (terminal b).
  { injection Hkids as <-. by apply not_elem_of_empty in Hin. }
  apply fmap_Ok in Hkids as (l & Hl & ->). apply elem_of_list_to_set in Hin.
  destruct (mapM_Ok_inv _ _ _ _ Hl Hin) as (i & _ & Hb').
  by apply bind_Ok in Hb' as (w & _ & [= <-]).
Qed.

Lemma chooses_child_successor {MCTS : Type}
    (choose : MCTS → TicTacToeBoard → TicTacToeBoard) :
  chooses_child choose → chooses_successor choose.
Proof. intros Hchild tree b Hb Hterm. by apply child_successor, Hchild. Qed.

Lemma chain_nsteps b boards final :
  chain b (boards ++ [final]) →
  nsteps successor (S (length boards)) b final.
Proof.
  revert b. induction boards as [|b' boards IH]; intros b; simpl.
  - intros [Hstep _]. eapply nsteps_l; [done|apply nsteps_O].
  - intros [Hstep Hchain]. eapply nsteps_l; [done|by apply IH].
Qed.

Lemma game_log_extends b boards d :
  State d `prefix_of` State (game_log b boards d) ∧
  Turn d `prefix_of` Turn (game_log b boards d).
Proof.
  revert b d. induction boards as [|b' boards IH]; intros b d; [done|].
  simpl. destruct (IH b' (logged b b' d)) as [HS HT].
  destruct (logged_extends b b' d) as (HS' & HT' & _). split; by etrans.
Qed.

Lemma game_log_all_recorded b boards d :
  Forall (λ x, rand x = false) boards →
  length (State (game_log b boards d)) = length (State d) + length boards.
Proof.
  intros Hall. revert b d.
  induction Hall as [|b' boards Hr _ IH]; intros b d; simpl; [lia|].
  rewrite IH. unfold logged. rewrite Hr. simpl. rewrite length_app. simpl. lia.
Qed.

Lemma game_log_all_states b boards final d :
  Forall (λ x, rand x = false) (boards ++ [final]) →
  State (game_log b (boards ++ [final]) d)
    = State d ++ ((λ x, state_code <$> tup x) <$> (b :: boards)) ∧
  Turn (game_log b (boards ++ [final]) d)
    = Turn d ++ ((λ x, turn_code (Some (turn x))) <$> (b :: boards)).
Proof.
  revert b d. induction boards as [|b' boards IH]; intros b d Hall.
  - simpl in Hall. rewrite Forall_singleton in Hall.
    simpl. unfold logged. by rewrite Hall.
  - apply Forall_cons in Hall as [Hr Hall]. simpl in Hr.
    change (game_log b ((b' :: boards) ++ [final]) d)
      with (game_log b' (boards ++ [final]) (logged b b' d)).
    destruct (IH b' (logged b b' d) Hall) as [-> ->].
    unfold logged. rewrite Hr. simpl. by rewrite <-!app_assoc.
Qed.

Lemma game_log_all_actions b boards d :
  playable b → chain b boards → Forall (λ x, rand x = false) boards →
  length (Action (game_log b boards d)) = length (Action d) + length boards.
Proof.
  revert b d. induction boards as [|b' boards IH]; intros b d Hb Hchain Hall.
  { simpl. lia. }
  destruct Hchain as [Hsucc Hchain]. apply Forall_cons in Hall as [Hr Hall].
  simpl in Hr. simpl. rewrite IH; [|by eapply rtc_r|done..].
  destruct Hsucc as (_ & i & r & Hi & Hb').
  assert (length (tup b) = 9) as Hlen
    by by apply consistent_length, playable_consistent.
  rewrite make_move_move_to in Hb'; [|done|by eapply lookup_Some_lt9].
  injection Hb' as <-. simpl in Hr. subst r.
  rewrite logged_move by done. simpl. rewrite length_app. simpl. lia.
Qed.

(** X17: with an engine that chooses among the boards of [find_children],
    every round of a game is recorded. [play_game] returns (9 rounds are
    enough, and with any other number of rounds it returns nothing else);
    the game goes through a chain of boards, the last of them the only
    terminal one, one board for each round, each rendered once on the
    output; there are between 5 and 9 of them; and the dataset gets exactly
    one State, one Turn and one Action entry for each round, in the order of
    the rounds: the State and Turn entries of a round are the codes of the
    cells and of the mover of the board the round started from, so the
    first is the empty board with X to move. *)
Theorem play_game_records_every_move {MCTS : Type} (new_tree : MCTS)
    (do_rollout : MCTS → TicTacToeBoard → MCTS)
    (choose : MCTS → TicTacToeBoard → TicTacToeBoard) (w : world) :
  chooses_child choose →
  ∃ w' boards final pretties,
    play_game new_tree do_rollout choose 9 w = Some (Ok w') ∧
    (∀ fuel r, play_game new_tree do_rollout choose fuel w = Some r →
               r = Ok w') ∧
    chain new_tic_tac_toe_board (boards ++ [final]) ∧
    Forall (λ x, terminal x = false) boards ∧ terminal final = true ∧
    Forall (λ x, rand x = false) (boards ++ [final]) ∧
    Forall2 (λ x s, to_pretty_string x = Ok s) (boards ++ [final]) pretties ∧
    stdout w' = stdout w ++ pretties ++ announcement (winner final) ∧
    length pretties = length (boards ++ [final]) ∧
    5 ≤ length (boards ++ [final]) ≤ 9 ∧
    State (data w')
      = State (data w)
        ++ ((λ x, state_code <$> tup x) <$> (new_tic_tac_toe_board :: boards)) ∧
    Turn (data w')
      = Turn (data w)
        ++ ((λ x, turn_code (Some (turn x))) <$> (new_tic_tac_toe_board :: boards)) ∧
    length (State (data w'))
      = length (State (data w)) + length (boards ++ [final]) ∧
    length (Turn (data w'))
      = length (Turn (data w)) + length (boards ++ [final]) ∧
    length (Action (data w'))
      = length (Action (data w)) + length (boards ++ [final]) ∧
    State (data w') !! length (State (data w))
      = Some (replicate 9 "0"%string) ∧
    Turn (data w') !! length (Turn (data w)) = Some "1"%string.
Proof.
  intros Hchild.
  pose proof (chooses_child_successor choose Hchild) as Hchoose.
  destruct (play_game_returns new_tree do_rollout choose Hchoose w)
    as (w' & Hgame & _).
  destruct (play_loop_trace_with do_rollout choose Hchoose
              (λ x, rand x = false)
              (λ tree b Hb Hterm, child_rand b _ (Hchild tree b Hb Hterm))
              9 new_tree new_tic_tac_toe_board w w')
    as (boards & final & pretties & Hchain & Hnt & Hfin & _ & Hpretty & Hout
        & Hdata & Hall); [apply rtc_refl|done..|].
  destruct (terminal_after_moves _ _ (chain_nsteps _ _ _ Hchain) Hfin) as [Hn _].
  destruct (game_log_all_states new_tic_tac_toe_board boards final (data w) Hall)
    as [HS HT].
  rewrite <-Hdata in HS, HT.
  assert (length (boards ++ [final]) = S (length boards)) as Hlen.
  { rewrite length_app. simpl. lia. }
  exists w', boards, final, pretties. split_and!; try done.
  - intros fuel r Hr. by eapply play_game_fuel.
  - symmetry. by eapply Forall2_length.
  - lia.
  - lia.
  - rewrite HS, length_app, length_fmap, Hlen. done.
  - rewrite HT, length_app, length_fmap, Hlen. done.
  - rewrite Hdata. apply game_log_all_actions; [apply rtc_refl|done..].
  - rewrite HS. by apply list_lookup_middle.
  - rewrite HT. by apply list_lookup_middle.
Qed.

Lemma first_child_child : chooses_child (λ _ : unit, first_child).
Proof.
  intros _ b Hb%playable_consistent Hterm.
  destruct (terminal_false_winner b Hb Hterm) as [_ Hpos].
  pose proof (consistent_length b Hb) as Hlen.
  rewrite <-length_empty_spots in Hpos. unfold first_child.
  pose proof (elem_of_empty_spots b) as Hspots.
  destruct (empty_spots b) as [|i spots]; [simpl in Hpos; lia|].
  assert (tup b !! i = Some None) as Hi by (apply Hspots; left).
  apply (make_move_child b i); [done..|].
  apply make_move_move_to; [done|]. by eapply lookup_Some_lt9.
Qed.

Lemma play_game_records_every_move_witness :
  ∃ w' n,
    play_game tt (λ t _, t) (λ _ : unit, first_child) 9 (World empty_data [])
      = Some (Ok w') ∧
    5 ≤ n ≤ 9 ∧ length (State (data w')) = 0 + n ∧
    length (Action (data w')) = 0 + n.
Proof.
  destruct (play_game_records_every_move tt (λ t _, t) (λ _ : unit, first_child)
              (World empty_data []) first_child_child)
    as (w' & boards & final & pretties & Hgame & _ & _ & _ & _ & _ & _ & _ & _
        & Hn & _ & _ & HS & _ & HA & _).
  exists w', (length (boards ++ [final])).
  split; [exact Hgame|]. split; [exact Hn|]. split; [exact HS|exact HA].
Defined.

(** ** The driver and the engine's answers *)

Lemma record_transition_logged b b' d :
  9 ≤ length (tup b) → 9 ≤ length (tup b') →
  record_transition b b' d = Ok (logged b b' d).
Proof.
  intros Hb Hb'. unfold record_transition, logged.
  destruct (rand b'); [done|]. cbn [negb].
  rewrite append_actions_Ok; [done|].
  eapply Forall_impl; [apply range9_lt|]. intros i Hi. simpl in Hi. lia.
Qed.

Section Stuck.
Context {MCTS : Type}.
Variable new_tree : MCTS.
Variable do_rollout : MCTS → TicTacToeBoard → MCTS.
Variable choose : MCTS → TicTacToeBoard → TicTacToeBoard.
Hypothesis choose_not_terminal :
  ∀ tree b, terminal b = false → 9 ≤ length (tup b) →
            terminal (choose tree b) = false ∧ 9 ≤ length (tup (choose tree b)).

Lemma play_loop_stuck fuel tree b w :
  terminal b = false → 9 ≤ length (tup b) →
  play_loop do_rollout choose fuel tree b w = None.
Proof.
  revert tree b w. induction fuel as [|fuel IH]; intros tree b w Hterm Hlen;
    [done|].
  cbn [play_loop]. unfold play_round. cbv zeta.
  set (tree' := Nat.iter 100 (λ t, do_rollout t b) tree).
  destruct (choose_not_terminal tree' b Hterm Hlen) as [Hterm' Hlen'].
  rewrite record_transition_logged by done. cbn [mbind result_bind].
  rewrite to_pretty_string_grid by done. cbn [mbind result_bind].
  rewrite Hterm'. by apply IH.
Qed.
End Stuck.

(** X18: the loop of [play_game] ends only on a terminal board, and the
    driver does not check what the engine returns: with an engine whose
    choice on a 9-cell board that is not terminal is again such a board (one
    that returns the board as it is, for instance), [play_game] raises
    nothing and does not return, however many rounds it is given. *)
Theorem play_game_never_returns {MCTS : Type} (new_tree : MCTS)
    (do_rollout : MCTS → TicTacToeBoard → MCTS)
    (choose : MCTS → TicTacToeBoard → TicTacToeBoard) :
  (∀ tree b, terminal b = false → 9 ≤ length (tup b) →
     terminal (choose tree b) = false ∧ 9 ≤ length (tup (choose tree b))) →
  ∀ fuel w, play_game new_tree do_rollout choose fuel w = None.
Proof.
  intros Hchoose fuel w. apply play_loop_stuck; [done..|simpl; lia].
Qed.

Lemma play_game_never_returns_witness :
  play_game tt (λ t _, t) (λ (_ : unit) b, b) 20 (World empty_data []) = None.
Proof.
  apply (play_game_never_returns tt (λ t _, t) (λ (_ : unit) b, b)).
  intros _ b Hterm Hlen. split; [exact Hterm|exact Hlen].
Defined.

(** ** The codes of the dataset *)

Lemma state_code_inj v v' : state_code v = state_code v' → v = v'.
Proof. by destruct v as [[]|], v' as [[]|]. Qed.

(** X19: the codes of a record lose nothing: two tuples of cells with the
    same State entry are the same tuple, the Turn entries of the two
    players differ, and a player's Turn entry is never "0". *)
Theorem codes_injective :
  (∀ t1 t2 : list cell, state_code <$> t1 = state_code <$> t2 → t1 = t2) ∧
  (∀ u1 u2 : bool, turn_code (Some u1) = turn_code (Some u2) → u1 = u2) ∧
  (∀ u : bool, turn_code (Some u) ≠ "0"%string).
Proof.
  split_and!.
  - intros t1. induction t1 as [|v t1 IH]; intros [|v' t2] Heq; try done.
    injection Heq as Hv%state_code_inj Ht%IH. by subst.
  - by intros [] [].
  - by intros [].
Qed.

Lemma codes_injective_witness :
  [None; Some X; Some O] = [None; Some X; Some O] ∧ X = X.
Proof.
  destruct codes_injective as (Hcells & Hturn & _).
  split; [by apply Hcells|by apply Hturn].
Defined.

(** ** The three tests of the end of a game *)

(** X20: on the boards of a game the three ways an engine can tell the end
    agree: [is_terminal] is true exactly when [find_children] is the empty
    set, and exactly when [reward] returns a value. *)
Theorem end_of_game_tests_agree (b : TicTacToeBoard) :
  playable b →
  (is_terminal b = true ↔ find_children b = Ok ∅) ∧
  (is_terminal b = true ↔ ∃ z, reward b = Ok z).
Proof.
  intros Hb. pose proof (playable_consistent b Hb) as Hcons.
  unfold is_terminal. destruct (terminal b) eqn:Hterm.
  - split; split; try done.
    + intros _. unfold find_children. by rewrite Hterm.
    + intros _. eexists. by apply reward_playable.
  - split; split; try done.
    + rewrite find_children_Ok; [|by apply consistent_length|done].
      intros [= Hempty]. destruct (terminal_false_winner b Hcons Hterm) as [_ Hpos].
      rewrite <-length_empty_spots in Hpos.
      destruct (empty_spots b) as [|i spots]; [simpl in Hpos; lia|].
      simpl in Hempty. set_solver.
    + intros [z Hz]. unfold reward in Hz. by rewrite Hterm in Hz.
Qed.

Lemma end_of_game_tests_agree_witness :
  find_children (after [0; 3; 1; 4; 2] new_tic_tac_toe_board) = Ok ∅ ∧
  ∃ z, reward (after [0; 3; 1; 4; 2] new_tic_tac_toe_board) = Ok z.
Proof.
  destruct (end_of_game_tests_agree (after [0; 3; 1; 4; 2] new_tic_tac_toe_board))
    as [Hkids Hreward]; [by apply playable_after|].
  split; [by apply Hkids|by apply Hreward].
Defined.

(** ** [reward] on terminal boards *)


